(** * MiftahDB: the key-value layer of [src/base.ts]

    A shallow embedding of [BaseMiftahDB] and the properties its
    specification states about it.

    The class keeps one table of rows [(key, value, expires_at)] in an
    embedded SQL engine and reaches it through prepared statements.  The
    embedding keeps that layering:

    - [SQL_STATEMENTS] gives the meaning of each prepared statement as a
      function on tables;
    - [run], [query] and [transaction] are the statement-execution
      interface of the backend, in a small state-and-exception monad;
    - [Section BaseMiftahDB] holds the methods of the class, one definition
      per method, written over the two functions the class imports from
      [./encoding] and the backend's LIKE operator;
    - [Encoding] is a concrete value codec. *)

From Stdlib Require Import List String Ascii Strings.Byte Bool ZArith NArith Lia.
From Stdlib Require Import Sorting.Sorted Structures.OrderedTypeEx.
Import ListNotations.

Local Open Scope Z_scope.
Set Warnings "-register-all".

(* ================================================================== *)
(** ** Values *)

(** A JavaScript number is an IEEE-754 binary64 datum.  The store never
    computes with stored numbers, it only moves them through the codec, so
    a number is represented by its eight bytes, most significant first. *)
Record float64 : Type :=
  F64 { f7 : byte; f6 : byte; f5 : byte; f4 : byte;
        f3 : byte; f2 : byte; f1 : byte; f0 : byte }.

(** [+0] and [1]. *)
Definition f64_zero : float64 := F64 x00 x00 x00 x00 x00 x00 x00 x00.
Definition f64_one : float64 := F64 x3f xf0 x00 x00 x00 x00 x00 x00.

(** Modelled from the spec: [src/types.ts] ([MiftahValue]) is missing.  The
    supported kinds are the closed set of the data model: null, boolean,
    number, string, byte buffer, date/time (its time value in
    milliseconds) and structured object/array.  [VFunction] stands for a
    value a caller can pass at run time that is outside that set (a
    function, a symbol): it has no encoding. *)
Inductive MiftahValue : Type :=
| VNull
| VBool (b : bool)
| VNumber (x : float64)
| VString (s : string)
| VBinary (bs : list byte)
| VDate (t : Z)
| VArray (items : list MiftahValue)
| VObject (fields : list (string * MiftahValue))
| VFunction.

(** Induction on values that reaches the items of arrays and the fields of
    objects. *)
Section MiftahValue_nested_induction.

Variable P : MiftahValue -> Prop.
Hypothesis H_null : P VNull.
Hypothesis H_bool : forall b, P (VBool b).
Hypothesis H_number : forall x, P (VNumber x).
Hypothesis H_string : forall s, P (VString s).
Hypothesis H_binary : forall bs, P (VBinary bs).
Hypothesis H_date : forall t, P (VDate t).
Hypothesis H_array : forall items, Forall P items -> P (VArray items).
Hypothesis H_object :
  forall fields, Forall (fun kv => P (snd kv)) fields -> P (VObject fields).
Hypothesis H_function : P VFunction.

Fixpoint MiftahValue_nested_ind (v : MiftahValue) : P v :=
  match v with
  | VNull => H_null
  | VBool b => H_bool b
  | VNumber x => H_number x
  | VString s => H_string s
  | VBinary bs => H_binary bs
  | VDate t => H_date t
  | VArray items =>
      H_array items
        ((fix all (l : list MiftahValue) : Forall P l :=
            match l with
            | [] => Forall_nil P
            | x :: l' => Forall_cons x (MiftahValue_nested_ind x) (all l')
            end) items)
  | VObject fields =>
      H_object fields
        ((fix all (l : list (string * MiftahValue))
            : Forall (fun kv => P (snd kv)) l :=
            match l with
            | [] => Forall_nil _
            | kv :: l' =>
                Forall_cons kv
                  (match kv as p return P (snd p) with
                   | (_, x) => MiftahValue_nested_ind x
                   end)
                  (all l')
            end) fields)
  | VFunction => H_function
  end.

End MiftahValue_nested_induction.

(** The kind of a value, as the specification lists them. *)
Inductive Kind : Type :=
| KNull | KBoolean | KNumber | KString | KBinary | KDate | KArray | KObject
| KUnsupported.

Definition kind_of (v : MiftahValue) : Kind :=
  match v with
  | VNull => KNull
  | VBool _ => KBoolean
  | VNumber _ => KNumber
  | VString _ => KString
  | VBinary _ => KBinary
  | VDate _ => KDate
  | VArray _ => KArray
  | VObject _ => KObject
  | VFunction => KUnsupported
  end.

(** A valid [Date] object; [getTime] is its time value, an integral number
    of milliseconds since the epoch.  The Invalid Date, whose time value
    is NaN, is not a value of this type: what is stated of a [Date] is
    stated of a valid one. *)
Record Date : Type := mkDate { getTime : Z }.

(* ================================================================== *)
(** ** Errors and the monad of store operations *)

(** Modelled from the spec: the error classes are declared outside
    [src/base.ts]; the taxonomy is the one of the specification.
    [BackendError] is any low-level failure the backend throws. *)
Inductive MiftahError : Type :=
| ValidationError
| DecodeError
| BackendError.

(** The outcome of a call: a returned value or a thrown error. *)
Inductive Result (A : Type) : Type :=
| Ok (a : A)
| Err (e : MiftahError).
Arguments Ok {A} a.
Arguments Err {A} e.

(** One row of the table.  [expires_at = None] is SQL NULL. *)
Record Row : Type :=
  mkRow { key : string; value : list byte; expires_at : option Z }.

Definition Table : Type := list Row.

(** A method of the store acts on the table and either returns or throws.
    A thrown error leaves the table as the statements executed so far made
    it: the second component is the table after the call in both cases. *)
Definition M (A : Type) : Type := Table -> Result A * Table.

Definition ret {A} (a : A) : M A := fun tbl => (Ok a, tbl).

Definition bind {A B} (m : M A) (k : A -> M B) : M B :=
  fun tbl =>
    match m tbl with
    | (Ok a, tbl') => k a tbl'
    | (Err e, tbl') => (Err e, tbl')
    end.

(** Lifts the outcome of a pure, fallible function. *)
Definition lift {A} (r : Result A) : M A := fun tbl => (r, tbl).

Declare Scope miftah_scope.
Delimit Scope miftah_scope with miftah.
Notation "x <- m ;; k" := (bind m (fun x => k))
  (at level 100, m at next level, right associativity) : miftah_scope.
Notation "m ;; k" := (bind m (fun _ => k))
  (at level 100, right associativity) : miftah_scope.
Local Open Scope miftah_scope.

(** [Statement.run]: executes a mutation. *)
Definition run (stmt : Table -> Table) : M unit :=
  fun tbl => (Ok tt, stmt tbl).

(** [Statement.get] and [Statement.all]: execute a read. *)
Definition query {A} (stmt : Table -> A) : M A :=
  fun tbl => (Ok (stmt tbl), tbl).

(** [Statement.all] on a statement with numeric parameters: the backend
    checks the numbers bound to it and may refuse them, in which case the
    call throws and nothing is read. *)
Definition query_checked {A} (stmt : Table -> Result A) : M A :=
  fun tbl => (stmt tbl, tbl).

(** Modelled from the spec: [db.transaction(fn)()] belongs to the backend.
    The callback runs as one atomic unit: when it returns, its effects are
    committed; when it throws, the table is rolled back to what it was
    before the call and the error propagates. *)
Definition transaction {A} (fn : M A) : M A :=
  fun tbl =>
    match fn tbl with
    | (Ok a, tbl') => (Ok a, tbl')
    | (Err e, _) => (Err e, tbl)
    end.

(** A [for (const x of xs)] loop. *)
Fixpoint for_of {A} (xs : list A) (body : A -> M unit) : M unit :=
  match xs with
  | [] => ret tt
  | x :: xs' => body x ;; for_of xs' body
  end.

(* ================================================================== *)
(** ** The prepared statements *)

(** [src/statements.ts], which holds the SQL text of [SQL_STATEMENTS], is
    missing.  Each statement is modelled from the spec: it has the meaning
    the specification's operation table and lifecycle give to the
    operation that runs it, over the single table
    [(key TEXT PRIMARY KEY, value BLOB, expires_at INTEGER NULL)].  The
    backend provides key-ordered storage: a table is the list of its rows
    by increasing key. *)
Module SQL_STATEMENTS.

(** [WHERE key = ?] *)
Definition has_key (k : string) (r : Row) : bool := String.eqb (key r) k.

(** [expires_at <= ?], which is not true of NULL. *)
Definition expired (now : Z) (r : Row) : bool :=
  match expires_at r with
  | Some e => e <=? now
  | None => false
  end.

(** Modelled from the spec: [SQL_STATEMENTS.GET] is missing; "fetch row":
    the row with key [k], or none. *)
Definition GET (k : string) (tbl : Table) : option Row :=
  find (has_key k) tbl.

(** Modelled from the spec: [SQL_STATEMENTS.EXISTS] is missing; "reflects
    raw row presence": 1 when a row has key [k], else 0. *)
Definition EXISTS (k : string) (tbl : Table) : Z :=
  if existsb (has_key k) tbl then 1 else 0.

(** Modelled from the spec: [SQL_STATEMENTS.DELETE] is missing; "remove
    row if present". *)
Definition DELETE (k : string) (tbl : Table) : Table :=
  filter (fun r => negb (has_key k r)) tbl.

(** Places a row in a key-ordered table. *)
Fixpoint insert_row (r : Row) (tbl : Table) : Table :=
  match tbl with
  | [] => [r]
  | x :: tbl' =>
      if String.ltb (key r) (key x) then r :: x :: tbl'
      else x :: insert_row r tbl'
  end.

(** Modelled from the spec: [SQL_STATEMENTS.SET] is missing; "upsert row
    (insert or overwrite on key conflict), set expires_at". *)
Definition SET (k : string) (v : list byte) (e : option Z)
  (tbl : Table) : Table :=
  insert_row (mkRow k v e) (DELETE k tbl).

(** Modelled from the spec: [SQL_STATEMENTS.RENAME] is missing; "row at
    oldKey is relabeled to newKey (overwriting any existing newKey row)",
    "no-op if oldKey absent". *)
Definition RENAME (newKey oldKey : string) (tbl : Table) : Table :=
  match GET oldKey tbl with
  | None => tbl
  | Some r =>
      insert_row (mkRow newKey (value r) (expires_at r))
        (DELETE newKey (DELETE oldKey tbl))
  end.

(** Modelled from the spec: [SQL_STATEMENTS.GET_EXPIRE] is missing; the
    [expires_at] column of the row with key [k]: [None] when there is no
    such row, [Some None] when the column is NULL. *)
Definition GET_EXPIRE (k : string) (tbl : Table) : option (option Z) :=
  option_map expires_at (GET k tbl).

(** Modelled from the spec: [SQL_STATEMENTS.SET_EXPIRE] is missing;
    "update only the expires_at column", "no-op if key absent". *)
Definition SET_EXPIRE (e : Z) (k : string) (tbl : Table) : Table :=
  map (fun r => if has_key k r then mkRow (key r) (value r) (Some e) else r)
    tbl.

(** Modelled from the spec: [SQL_STATEMENTS.CLEANUP] is missing;
    "physically deletes all rows with expires_at <= now". *)
Definition CLEANUP (now : Z) (tbl : Table) : Table :=
  filter (fun r => negb (expired now r)) tbl.

(** Modelled from the spec: [SQL_STATEMENTS.FLUSH] is missing; "deletes
    all rows (empties the table)". *)
Definition FLUSH (tbl : Table) : Table := [].

(** The backend's [LIMIT n]: a negative [n] puts no bound on the number of
    rows. *)
Definition sql_limit {A} (n : Z) (rows : list A) : list A :=
  if n <? 0 then rows else firstn (Z.to_nat n) rows.

(** The backend's [OFFSET n]: a negative [n] skips nothing. *)
Definition sql_offset {A} (n : Z) (rows : list A) : list A :=
  skipn (Z.to_nat n) rows.

(** The backend takes the number bound to [LIMIT] or [OFFSET] only if it
    converts to a 64-bit integer, which an integer strictly between
    [- 2 ^ 63] and [2 ^ 63] does, and refuses any other with a datatype
    mismatch. *)
Definition fits_int64 (n : Z) : bool :=
  (- 2 ^ 63 <? n) && (n <? 2 ^ 63).

Section Like.

(** The backend's [key LIKE pattern] test, pattern first. *)
Variable like : string -> string -> bool.

(** The rows whose key matches [pattern], expired or not. *)
Definition matching (pattern : string) (tbl : Table) : Table :=
  filter (fun r => like pattern (key r)) tbl.

(** Modelled from the spec: [SQL_STATEMENTS.KEYS] is missing; "returns
    ordered sequence of matching keys", with "no implicit expiration
    filtering". *)
Definition KEYS (pattern : string) (tbl : Table) : list string :=
  map key (matching pattern tbl).

(** Modelled from the spec: [SQL_STATEMENTS.PAGINATION] is missing; the
    matching keys, from [offset] on, at most [limit] of them.  The
    statement fails, with the low-level error of the backend, when
    [limit] or [offset] does not convert to a 64-bit integer. *)
Definition PAGINATION (pattern : string) (limit offset : Z)
  (tbl : Table) : Result (list string) :=
  if fits_int64 limit && fits_int64 offset
  then Ok (sql_limit limit (sql_offset offset (KEYS pattern tbl)))
  else Err BackendError.

(** Modelled from the spec: [SQL_STATEMENTS.COUNT_KEYS] is missing; "total
    matching rows (expired or not)". *)
Definition COUNT_KEYS (pattern : string) (tbl : Table) : Z :=
  Z.of_nat (List.length (matching pattern tbl)).

(** Modelled from the spec: [SQL_STATEMENTS.COUNT_EXPIRED] is missing;
    "rows matching pattern whose expires_at has passed".  The method binds
    the pattern only, so the statement reads the current time itself:
    [now] is that reading. *)
Definition COUNT_EXPIRED (now : Z) (pattern : string) (tbl : Table) : Z :=
  Z.of_nat (List.length (filter (expired now) (matching pattern tbl))).

End Like.

End SQL_STATEMENTS.

(* ================================================================== *)
(** ** The object [multiGet] returns *)

(** The own properties of a plain object with values of type
    [MiftahValue], in the order they were created.  The order in which
    JavaScript enumerates them is not modelled. *)
Definition JsRecord : Type := list (string * MiftahValue).

(** Writes the own property [name]: replaces its value when the object
    has it, and creates it otherwise. *)
Fixpoint record_set (name : string) (v : MiftahValue) (r : JsRecord)
  : JsRecord :=
  match r with
  | [] => [(name, v)]
  | (k, x) :: r' =>
      if String.eqb k name then (k, v) :: r'
      else (k, x) :: record_set name v r'
  end.

(** [result[name] = v] on a plain object.  The name [__proto__] reaches
    the prototype setter and creates no own property; what a changed
    prototype does to later assignments is not modelled, and the
    properties about the contents of a result leave this name out. *)
Definition record_assign (name : string) (v : MiftahValue) (r : JsRecord)
  : JsRecord :=
  if String.eqb name "__proto__" then r else record_set name v r.

(** The value of the own property [name], if the object has it. *)
Definition record_get (name : string) (r : JsRecord) : option MiftahValue :=
  option_map snd (find (fun kv => String.eqb (fst kv) name) r).

(* ================================================================== *)
(** ** The methods of [BaseMiftahDB] *)

Section BaseMiftahDB.

(** [encodeValue] and [decodeValue], imported from [./encoding]. *)
Variable encodeValue : MiftahValue -> Result (list byte).
Variable decodeValue : list byte -> Result MiftahValue.

(** The backend's LIKE operator. *)
Variable like : string -> string -> bool.

(** Truthiness of a [number | null]: [null] and [0] are falsy. *)
Definition truthy (e : option Z) : bool :=
  match e with
  | Some n => negb (n =? 0)
  | None => false
  end.

(** The numeric value a [number | null] takes in a comparison. *)
Definition to_number (e : option Z) : Z :=
  match e with
  | Some n => n
  | None => 0
  end.

(** [Boolean(n)] for a number. *)
Definition Boolean (n : Z) : bool := negb (n =? 0).

Definition delete (key : string) : M unit :=
  run (SQL_STATEMENTS.DELETE key).

(** [now] is the value [Date.now()] returns during the call; a returned
    [null] is [VNull]. *)
Definition get (key : string) (now : Z) : M MiftahValue :=
  result <- query (SQL_STATEMENTS.GET key) ;;
  match result with
  | None => ret VNull
  | Some result =>
      if truthy (expires_at result) && (to_number (expires_at result) <=? now)
      then delete key ;; ret VNull
      else lift (decodeValue (value result))
  end.

Definition set (key : string) (value : MiftahValue) (expiresAt : option Date)
  : M unit :=
  encodedValue <- lift (encodeValue value) ;;
  let expiresAtMs := option_map getTime expiresAt in
  run (SQL_STATEMENTS.SET key encodedValue expiresAtMs).

Definition exists_ (key : string) : M bool :=
  result <- query (SQL_STATEMENTS.EXISTS key) ;;
  ret (Boolean result).

Definition rename (oldKey newKey : string) : M unit :=
  run (SQL_STATEMENTS.RENAME newKey oldKey).

Definition setExpire (key : string) (expiresAt : Date) : M unit :=
  let expiresAtMs := getTime expiresAt in
  run (SQL_STATEMENTS.SET_EXPIRE expiresAtMs key).

Definition getExpire (key : string) : M (option Date) :=
  result <- query (SQL_STATEMENTS.GET_EXPIRE key) ;;
  match result with
  | Some e => ret (if truthy e then Some (mkDate (to_number e)) else None)
  | None => ret None
  end.

Definition keys (pattern : string) : M (list string) :=
  query (SQL_STATEMENTS.KEYS like pattern).

(** [limit] and [page] are the integer values of the numbers passed.  The
    offset is the exact product, as JavaScript computes it when the
    operands and the product are safe integers, below [2 ^ 53] in absolute
    value; the properties of [pagination] that depend on the offset are
    stated in that range, and its failure from [2 ^ 63] on. *)
Definition pagination (limit page : Z) (pattern : string) : M (list string) :=
  let offset := (page - 1) * limit in
  query_checked (SQL_STATEMENTS.PAGINATION like pattern limit offset).

Definition count (pattern : string) : M Z :=
  query (SQL_STATEMENTS.COUNT_KEYS like pattern).

(** One entry of a [multiSet] batch. *)
Record Entry : Type :=
  mkEntry { entry_key : string;
            entry_value : MiftahValue;
            entry_expiresAt : option Date }.

Definition multiSet (entries : list Entry) : M unit :=
  transaction
    (for_of entries
       (fun entry =>
          set (entry_key entry) (entry_value entry) (entry_expiresAt entry))).

Definition multiDelete (keys : list string) : M unit :=
  transaction (for_of keys (fun key => delete key)).

Definition cleanup (now : Z) : M unit :=
  run (SQL_STATEMENTS.CLEANUP now).

Definition flush : M unit :=
  run SQL_STATEMENTS.FLUSH.

(** [now] is the current time the statement reads in the backend. *)
Definition countExpired (now : Z) (pattern : string) : M Z :=
  query (SQL_STATEMENTS.COUNT_EXPIRED like now pattern).

(** The loop of [multiGet].  Each key comes with the value [Date.now()]
    returns when the [get] of its iteration runs; [result] is the object
    the loop fills. *)
Fixpoint multiGet_loop (reads : list (string * Z)) (result : JsRecord)
  : M JsRecord :=
  match reads with
  | [] => ret result
  | (key, now) :: reads' =>
      v <- get key now ;;
      multiGet_loop reads' (record_assign key v result)
  end.

(** The object is created before the transaction and returned after it;
    when the transaction throws, [multiGet] throws and returns no object,
    so the loop can hand the object over as its result. *)
Definition multiGet (reads : list (string * Z)) : M JsRecord :=
  transaction (multiGet_loop reads []).

End BaseMiftahDB.

(** The default value of the [pattern] parameters. *)
Definition default_pattern : string := "%".

(* ================================================================== *)
(** ** The value codec *)

(** [src/encoding.ts], which defines [encodeValue] and [decodeValue], is
    missing.  The codec of this module is modelled from the spec: it is the
    self-describing format of the specification's Value Codec section.
    Every encoded value starts with a one-byte type tag, so the decoder
    recovers the kind without a hint; sizes are written as base-128
    numbers.  A value outside the supported kinds is refused with
    [ValidationError]; bytes that are not an encoding are refused with
    [DecodeError]. *)
Module Encoding.

Definition byte_of_N (n : N) : byte :=
  match Byte.of_N n with
  | Some b => b
  | None => x00
  end.

(** Base-128 digits of [n], least significant first; every digit but the
    last has its high bit set. *)
Fixpoint varint (fuel : nat) (n : N) : list byte :=
  match fuel with
  | O => []
  | S fuel' =>
      if (n <? 128)%N then [byte_of_N n]
      else byte_of_N (128 + n mod 128) :: varint fuel' (n / 128)
  end.

Definition encode_varint (n : N) : list byte :=
  varint (S (N.to_nat (N.size n))) n.

Fixpoint decode_varint (bs : list byte) : Result (N * list byte) :=
  match bs with
  | [] => Err DecodeError
  | b :: bs' =>
      let x := Byte.to_N b in
      if (x <? 128)%N then Ok (x, bs')
      else
        match decode_varint bs' with
        | Ok (hi, rest) => Ok ((x - 128) + 128 * hi, rest)%N
        | Err e => Err e
        end
  end.

(** A byte sequence with its length in front. *)
Definition encode_blob (bs : list byte) : list byte :=
  encode_varint (N.of_nat (List.length bs)) ++ bs.

Definition decode_blob (bs : list byte) : Result (list byte * list byte) :=
  match decode_varint bs with
  | Ok (n, rest) =>
      if (N.of_nat (List.length rest) <? n)%N then Err DecodeError
      else Ok (firstn (N.to_nat n) rest, skipn (N.to_nat n) rest)
  | Err e => Err e
  end.

(** An integer as a sign byte and a magnitude. *)
Definition encode_int (t : Z) : list byte :=
  (if t <? 0 then x01 else x00) :: encode_varint (Z.abs_N t).

Definition decode_int (bs : list byte) : Result (Z * list byte) :=
  match bs with
  | x00 :: bs' =>
      match decode_varint bs' with
      | Ok (m, rest) => Ok (Z.of_N m, rest)
      | Err e => Err e
      end
  | x01 :: bs' =>
      match decode_varint bs' with
      | Ok (m, rest) => Ok (- Z.of_N m, rest)
      | Err e => Err e
      end
  | _ => Err DecodeError
  end.

Definition f64_bytes (x : float64) : list byte :=
  [f7 x; f6 x; f5 x; f4 x; f3 x; f2 x; f1 x; f0 x].

(** The type tags. *)
Definition TAG_NULL : byte := x00.
Definition TAG_BOOLEAN : byte := x01.
Definition TAG_NUMBER : byte := x02.
Definition TAG_STRING : byte := x03.
Definition TAG_BINARY : byte := x04.
Definition TAG_DATE : byte := x05.
Definition TAG_ARRAY : byte := x06.
Definition TAG_OBJECT : byte := x07.

(** Concatenates the encodings of a sequence; the first failure wins. *)
Fixpoint encode_seq (parts : list (Result (list byte))) : Result (list byte) :=
  match parts with
  | [] => Ok []
  | Ok bs :: parts' =>
      match encode_seq parts' with
      | Ok rest => Ok (bs ++ rest)
      | Err e => Err e
      end
  | Err e :: _ => Err e
  end.

Definition with_prefix (pre : list byte) (r : Result (list byte))
  : Result (list byte) :=
  match r with
  | Ok bs => Ok (pre ++ bs)
  | Err e => Err e
  end.

(** Modelled from the spec: the body of [encodeValue]; a type tag, then
    the payload of the kind. *)
Fixpoint encode (v : MiftahValue) : Result (list byte) :=
  match v with
  | VNull => Ok [TAG_NULL]
  | VBool b => Ok [TAG_BOOLEAN; if b then x01 else x00]
  | VNumber x => Ok (TAG_NUMBER :: f64_bytes x)
  | VString s => Ok (TAG_STRING :: encode_blob (list_byte_of_string s))
  | VBinary bs => Ok (TAG_BINARY :: encode_blob bs)
  | VDate t => Ok (TAG_DATE :: encode_int t)
  | VArray items =>
      with_prefix
        (TAG_ARRAY :: encode_varint (N.of_nat (List.length items)))
        (encode_seq (map encode items))
  | VObject fields =>
      with_prefix
        (TAG_OBJECT :: encode_varint (N.of_nat (List.length fields)))
        (encode_seq
           (map (fun kv =>
                   with_prefix (encode_blob (list_byte_of_string (fst kv)))
                     (encode (snd kv)))
              fields))
  | VFunction => Err ValidationError
  end.

(** Modelled from the spec: [encodeValue] of [src/encoding.ts] is missing;
    "encode(value) -> bytes", self-describing "by prefixing a type tag",
    failing with [ValidationError] on an unencodable value. *)
Definition encodeValue (v : MiftahValue) : Result (list byte) := encode v.

(** Decodes [n] values in a row with the decoder [dec]. *)
Fixpoint decode_seq (dec : list byte -> Result (MiftahValue * list byte))
  (n : nat) (bs : list byte) : Result (list MiftahValue * list byte) :=
  match n with
  | O => Ok ([], bs)
  | S n' =>
      match dec bs with
      | Ok (v, rest) =>
          match decode_seq dec n' rest with
          | Ok (vs, rest') => Ok (v :: vs, rest')
          | Err e => Err e
          end
      | Err e => Err e
      end
  end.

(** Decodes [n] fields, each a key and a value. *)
Fixpoint decode_fields (dec : list byte -> Result (MiftahValue * list byte))
  (n : nat) (bs : list byte)
  : Result (list (string * MiftahValue) * list byte) :=
  match n with
  | O => Ok ([], bs)
  | S n' =>
      match decode_blob bs with
      | Ok (k, rest) =>
          match dec rest with
          | Ok (v, rest') =>
              match decode_fields dec n' rest' with
              | Ok (kvs, rest'') =>
                  Ok ((string_of_list_byte k, v) :: kvs, rest'')
              | Err e => Err e
              end
          | Err e => Err e
          end
      | Err e => Err e
      end
  end.

(** Modelled from the spec: the body of [decodeValue]; decodes one value
    from the front of [bs], the kind read from the tag; [fuel] bounds the
    nesting depth. *)
Fixpoint decode (fuel : nat) (bs : list byte)
  : Result (MiftahValue * list byte) :=
  match fuel with
  | O => Err DecodeError
  | S fuel' =>
      match bs with
      | [] => Err DecodeError
      | tag :: rest =>
          if Byte.eqb tag TAG_NULL then Ok (VNull, rest)
          else if Byte.eqb tag TAG_BOOLEAN then
            match rest with
            | x00 :: rest' => Ok (VBool false, rest')
            | x01 :: rest' => Ok (VBool true, rest')
            | _ => Err DecodeError
            end
          else if Byte.eqb tag TAG_NUMBER then
            match rest with
            | b7 :: b6 :: b5 :: b4 :: b3 :: b2 :: b1 :: b0 :: rest' =>
                Ok (VNumber (F64 b7 b6 b5 b4 b3 b2 b1 b0), rest')
            | _ => Err DecodeError
            end
          else if Byte.eqb tag TAG_STRING then
            match decode_blob rest with
            | Ok (s, rest') => Ok (VString (string_of_list_byte s), rest')
            | Err e => Err e
            end
          else if Byte.eqb tag TAG_BINARY then
            match decode_blob rest with
            | Ok (b, rest') => Ok (VBinary b, rest')
            | Err e => Err e
            end
          else if Byte.eqb tag TAG_DATE then
            match decode_int rest with
            | Ok (t, rest') => Ok (VDate t, rest')
            | Err e => Err e
            end
          else if Byte.eqb tag TAG_ARRAY then
            match decode_varint rest with
            | Ok (n, rest') =>
                match decode_seq (decode fuel') (N.to_nat n) rest' with
                | Ok (items, rest'') => Ok (VArray items, rest'')
                | Err e => Err e
                end
            | Err e => Err e
            end
          else if Byte.eqb tag TAG_OBJECT then
            match decode_varint rest with
            | Ok (n, rest') =>
                match decode_fields (decode fuel') (N.to_nat n) rest' with
                | Ok (fields, rest'') => Ok (VObject fields, rest'')
                | Err e => Err e
                end
            | Err e => Err e
            end
          else Err DecodeError
      end
  end.

(** Modelled from the spec: [decodeValue] of [src/encoding.ts] is missing;
    "decode(bytes) -> value", where "decoding a corrupted or foreign byte
    sequence fails with a DecodeError".  The whole input must be one
    encoded value. *)
Definition decodeValue (bs : list byte) : Result MiftahValue :=
  match decode (List.length bs) bs with
  | Ok (v, []) => Ok v
  | Ok (_, _ :: _) => Err DecodeError
  | Err e => Err e
  end.

(** The supported values: no [VFunction] at any depth. *)
Fixpoint supported (v : MiftahValue) : bool :=
  match v with
  | VArray items => forallb supported items
  | VObject fields => forallb (fun kv => supported (snd kv)) fields
  | VFunction => false
  | _ => true
  end.

(** Nesting depth: the fuel [decode] needs. *)
Fixpoint depth (v : MiftahValue) : nat :=
  match v with
  | VArray items => S (fold_right Nat.max O (map depth items))
  | VObject fields =>
      S (fold_right Nat.max O (map (fun kv => depth (snd kv)) fields))
  | _ => 1
  end.

(** [v] decodes back from its encoding, followed by anything, with any
    fuel that covers its depth. *)
Definition round_trips (v : MiftahValue) : Prop :=
  forall bs, encode v = Ok bs ->
  forall fuel rest, (depth v <= fuel)%nat ->
  decode fuel (bs ++ rest) = Ok (v, rest).

(** An encoding is at least as long as the value is deep, so the length
    of the input is fuel enough for [decodeValue]. *)
Definition depth_bounded (v : MiftahValue) : Prop :=
  forall bs, encode v = Ok bs -> (depth v <= List.length bs)%nat.

End Encoding.

(** ** A LIKE operator to run the store on concrete inputs *)

(** The lower-case form of an ASCII letter. *)
Definition lower (c : ascii) : ascii :=
  let n := nat_of_ascii c in
  if (Nat.leb 65 n && Nat.leb n 90)%bool then ascii_of_nat (n + 32) else c.

(** SQL's LIKE on byte strings: [%] matches any run of characters, [_] any
    one character, a letter matches itself in either case. *)
Fixpoint sql_like (pattern s : string) : bool :=
  match pattern with
  | EmptyString => match s with EmptyString => true | _ => false end
  | String p pattern' =>
      if Ascii.eqb p "%" then
        (fix any (s : string) : bool :=
           sql_like pattern' s ||
           match s with
           | EmptyString => false
           | String _ s' => any s'
           end) s
      else
        match s with
        | EmptyString => false
        | String c s' =>
            (Ascii.eqb p "_" || Ascii.eqb (lower p) (lower c))
            && sql_like pattern' s'
        end
  end.


(* ================================================================== *)
(** ** Auxiliary definitions for the statements of the properties *)

Local Open Scope string_scope.

(** The order of the table: rows by increasing key. *)
Definition key_lt (a b : Row) : Prop := String.ltb (key a) (key b) = true.

Definition key_ordered (tbl : Table) : Prop := StronglySorted key_lt tbl.

(** A method keeps the order when the table it leaves is key-ordered
    whenever the table it found was, whether it returns or throws. *)
Definition keeps_order {A} (m : M A) : Prop :=
  forall tbl, key_ordered tbl -> key_ordered (snd (m tbl)).

(** The body of the loop of [multiSet]. *)
Definition set_entry (encodeValue : MiftahValue -> Result (list byte))
  (entry : Entry) : M unit :=
  set encodeValue (entry_key entry) (entry_value entry)
    (entry_expiresAt entry).

(** The row an entry writes, given the encoding of its value. *)
Definition entry_row (entry : Entry) (bs : list byte) : Row :=
  mkRow (entry_key entry) bs (option_map getTime (entry_expiresAt entry)).

(** A table holding one row for ["k"]: the string ["v"], expiring at the
    epoch (timestamp 0). *)
Definition epoch_table : Table :=
  [mkRow "k" [x03; x01; "v"%byte] (Some 0)].

(** Ten keys written one after the other into an empty store. *)
Definition ten_keys : list string :=
  ["k01"; "k02"; "k03"; "k04"; "k05"; "k06"; "k07"; "k08"; "k09"; "k10"].

Definition ten_keys_table : Table :=
  snd (for_of ten_keys (fun k => set Encoding.encodeValue k VNull None) []).




(** What the three single-key reads return for [key] on a table. *)
Definition observe (decodeValue : list byte -> Result MiftahValue)
  (key : string) (now : Z) (tbl : Table)
  : Result MiftahValue * Result bool * Result (option Date) :=
  (fst (get decodeValue key now tbl),
   fst (exists_ key tbl),
   fst (getExpire key tbl)).

(** The test [get] applies to a row at time [now]. *)
Definition taken_for_expired (now : Z) (r : Row) : bool :=
  truthy (expires_at r) && (to_number (expires_at r) <=? now)%Z.

(** Whether some read of [k] in [reads] takes the row [r] for expired. *)
Definition reclaimed_by (reads : list (string * Z)) (k : string) (r : Row)
  : bool :=
  existsb (fun rd => String.eqb (fst rd) k && taken_for_expired (snd rd) r)
    reads.

(** A call of a method of the store. *)
Inductive Call : Type :=
| CallGet (key : string) (now : Z)
| CallSet (key : string) (value : MiftahValue) (expiresAt : option Date)
| CallExists (key : string)
| CallDelete (key : string)
| CallRename (oldKey newKey : string)
| CallSetExpire (key : string) (expiresAt : Date)
| CallGetExpire (key : string)
| CallKeys (pattern : string)
| CallPagination (limit page : Z) (pattern : string)
| CallCount (pattern : string)
| CallCountExpired (now : Z) (pattern : string)
| CallMultiGet (reads : list (string * Z))
| CallMultiSet (entries : list Entry)
| CallMultiDelete (keys : list string)
| CallCleanup (now : Z)
| CallFlush.

(** The table a call leaves, whether it returns or throws. *)
Definition perform
  (encodeValue : MiftahValue -> Result (list byte))
  (decodeValue : list byte -> Result MiftahValue)
  (like : string -> string -> bool) (c : Call) (tbl : Table) : Table :=
  match c with
  | CallGet key now => snd (get decodeValue key now tbl)
  | CallSet key value expiresAt => snd (set encodeValue key value expiresAt tbl)
  | CallExists key => snd (exists_ key tbl)
  | CallDelete key => snd (delete key tbl)
  | CallRename oldKey newKey => snd (rename oldKey newKey tbl)
  | CallSetExpire key expiresAt => snd (setExpire key expiresAt tbl)
  | CallGetExpire key => snd (getExpire key tbl)
  | CallKeys pattern => snd (keys like pattern tbl)
  | CallPagination limit page pattern =>
      snd (pagination like limit page pattern tbl)
  | CallCount pattern => snd (count like pattern tbl)
  | CallCountExpired now pattern => snd (countExpired like now pattern tbl)
  | CallMultiGet reads => snd (multiGet decodeValue reads tbl)
  | CallMultiSet entries => snd (multiSet encodeValue entries tbl)
  | CallMultiDelete keys => snd (multiDelete keys tbl)
  | CallCleanup now => snd (cleanup now tbl)
  | CallFlush => snd (flush tbl)
  end.

(** The table after a sequence of calls on a store that starts empty. *)
Definition run_calls
  (encodeValue : MiftahValue -> Result (list byte))
  (decodeValue : list byte -> Result MiftahValue)
  (like : string -> string -> bool) (calls : list Call) : Table :=
  fold_left (fun tbl c => perform encodeValue decodeValue like c tbl) calls [].

(* ================================================================== *)
(** * Properties *)

Local Open Scope list_scope.
Local Open Scope Z_scope.

(** ** Facts about the statements *)

Import SQL_STATEMENTS.

Lemma has_key_iff (k : string) (r : Row) : has_key k r = true <-> key r = k.
Proof. unfold has_key. apply String.eqb_eq. Qed.

Lemma has_key_false_iff (k : string) (r : Row) :
  has_key k r = false <-> key r <> k.
Proof. unfold has_key. apply String.eqb_neq. Qed.

Lemma has_key_self (r : Row) : has_key (key r) r = true.
Proof. now apply has_key_iff. Qed.

Lemma GET_some_key (k : string) (tbl : Table) (r : Row) :
  GET k tbl = Some r -> key r = k.
Proof.
  unfold GET. intros H. apply find_some in H. now apply has_key_iff.
Qed.

Lemma GET_some_In (k : string) (tbl : Table) (r : Row) :
  GET k tbl = Some r -> In r tbl.
Proof. unfold GET. intros H. now apply find_some in H. Qed.

Lemma GET_none_iff (k : string) (tbl : Table) :
  GET k tbl = None <-> (forall r, In r tbl -> key r <> k).
Proof.
  unfold GET. split.
  - intros H r Hin. apply has_key_false_iff.
    exact (find_none _ _ H r Hin).
  - intros H. induction tbl as [|x tbl IH]; simpl; [reflexivity|].
    destruct (has_key k x) eqn:E.
    + apply has_key_iff in E. exfalso. apply (H x); [now left | exact E].
    + apply IH. intros r Hin. apply H. now right.
Qed.

Lemma EXISTS_GET (k : string) (tbl : Table) :
  EXISTS k tbl = match GET k tbl with Some _ => 1 | None => 0 end.
Proof.
  unfold EXISTS, GET. induction tbl as [|x tbl IH]; simpl; [reflexivity|].
  destruct (has_key k x); simpl; [reflexivity | exact IH].
Qed.

Lemma GET_DELETE_same (k : string) (tbl : Table) : GET k (DELETE k tbl) = None.
Proof.
  apply GET_none_iff. intros r Hin. unfold DELETE in Hin.
  apply filter_In in Hin. destruct Hin as [_ Hk].
  apply has_key_false_iff. now destruct (has_key k r).
Qed.

Lemma GET_DELETE_other (k k' : string) (tbl : Table) :
  k <> k' -> GET k (DELETE k' tbl) = GET k tbl.
Proof.
  intros Hne. unfold GET, DELETE.
  induction tbl as [|x tbl IH]; simpl; [reflexivity|].
  destruct (has_key k' x) eqn:E'; simpl.
  - apply has_key_iff in E'.
    assert (E : has_key k x = false)
      by (apply has_key_false_iff; congruence).
    now rewrite E.
  - destruct (has_key k x); [reflexivity | exact IH].
Qed.

Lemma DELETE_absent (k : string) (tbl : Table) :
  GET k tbl = None -> DELETE k tbl = tbl.
Proof.
  intros H. unfold DELETE.
  induction tbl as [|x tbl IH]; simpl; [reflexivity|].
  assert (Hx : has_key k x = false).
  { apply has_key_false_iff. apply (proj1 (GET_none_iff k _) H). now left. }
  rewrite Hx. simpl. f_equal. apply IH.
  unfold GET in *. simpl in H. now rewrite Hx in H.
Qed.

Lemma GET_insert_row_other (k : string) (r : Row) (tbl : Table) :
  key r <> k -> GET k (insert_row r tbl) = GET k tbl.
Proof.
  intros Hne. unfold GET.
  assert (Hr : has_key k r = false) by now apply has_key_false_iff.
  induction tbl as [|x tbl IH]; simpl.
  - now rewrite Hr.
  - destruct (String.ltb (key r) (key x)); simpl.
    + now rewrite Hr.
    + destruct (has_key k x); [reflexivity | exact IH].
Qed.

Lemma GET_insert_row_same (r : Row) (tbl : Table) :
  GET (key r) tbl = None -> GET (key r) (insert_row r tbl) = Some r.
Proof.
  unfold GET. induction tbl as [|x tbl IH]; simpl; intros H.
  - now rewrite has_key_self.
  - destruct (has_key (key r) x) eqn:E; [discriminate|].
    destruct (String.ltb (key r) (key x)); simpl.
    + now rewrite has_key_self.
    + rewrite E. now apply IH.
Qed.

Lemma GET_SET_same (k : string) (v : list byte) (e : option Z) (tbl : Table) :
  GET k (SET k v e tbl) = Some (mkRow k v e).
Proof.
  unfold SET.
  apply (GET_insert_row_same (mkRow k v e)). simpl. apply GET_DELETE_same.
Qed.

Lemma GET_SET_other (k k' : string) (v : list byte) (e : option Z)
  (tbl : Table) :
  k' <> k -> GET k' (SET k v e tbl) = GET k' tbl.
Proof.
  intros Hne. unfold SET.
  rewrite GET_insert_row_other by (simpl; congruence).
  now apply GET_DELETE_other.
Qed.

Lemma GET_RENAME_absent (newKey oldKey : string) (tbl : Table) :
  GET oldKey tbl = None -> RENAME newKey oldKey tbl = tbl.
Proof. intros H. unfold RENAME. now rewrite H. Qed.

Lemma GET_RENAME_new (newKey oldKey : string) (tbl : Table) (r : Row) :
  GET oldKey tbl = Some r ->
  GET newKey (RENAME newKey oldKey tbl)
  = Some (mkRow newKey (value r) (expires_at r)).
Proof.
  intros H. unfold RENAME. rewrite H.
  apply (GET_insert_row_same (mkRow newKey (value r) (expires_at r))).
  simpl. apply GET_DELETE_same.
Qed.

Lemma GET_RENAME_old (newKey oldKey : string) (tbl : Table) :
  oldKey <> newKey -> GET oldKey (RENAME newKey oldKey tbl) = None.
Proof.
  intros Hne. unfold RENAME.
  destruct (GET oldKey tbl) as [r|] eqn:H; [|exact H].
  rewrite GET_insert_row_other by (simpl; congruence).
  rewrite GET_DELETE_other by exact Hne.
  apply GET_DELETE_same.
Qed.

Lemma GET_RENAME_other (newKey oldKey k : string) (tbl : Table) :
  k <> oldKey -> k <> newKey -> GET k (RENAME newKey oldKey tbl) = GET k tbl.
Proof.
  intros Ho Hn. unfold RENAME.
  destruct (GET oldKey tbl) as [r|] eqn:H; [|reflexivity].
  rewrite GET_insert_row_other by (simpl; congruence).
  now rewrite !GET_DELETE_other.
Qed.

(** ** The table stays key-ordered *)

Lemma ltb_lts (a b : string) :
  String.ltb a b = true <-> String_as_OT.lt a b.
Proof.
  rewrite <- String_as_OT.cmp_lt. unfold String.ltb, String_as_OT.cmp.
  destruct (String.compare a b); split; congruence.
Qed.

Lemma ltb_trans (a b c : string) :
  String.ltb a b = true -> String.ltb b c = true -> String.ltb a c = true.
Proof. rewrite !ltb_lts. apply String_as_OT.lt_trans. Qed.

Lemma ltb_irrefl (a : string) : String.ltb a a = false.
Proof.
  destruct (String.ltb a a) eqn:E; [|reflexivity].
  apply ltb_lts in E. exfalso.
  exact (String_as_OT.lt_not_eq _ _ E eq_refl).
Qed.

Lemma ltb_total (a b : string) :
  a <> b -> String.ltb a b = false -> String.ltb b a = true.
Proof.
  unfold String.ltb. rewrite (String.compare_antisym b a).
  destruct (String.compare a b) eqn:E; simpl; try congruence.
  apply String.compare_eq_iff in E. congruence.
Qed.

Lemma key_ordered_filter (f : Row -> bool) (tbl : Table) :
  key_ordered tbl -> key_ordered (filter f tbl).
Proof.
  induction 1 as [|x tbl _ IH Hx]; simpl; [constructor|].
  destruct (f x); [|exact IH].
  constructor; [exact IH|].
  rewrite Forall_forall in *. intros y Hy. apply Hx.
  now apply filter_In in Hy.
Qed.

Lemma In_insert_row (r y : Row) (tbl : Table) :
  In y (insert_row r tbl) <-> y = r \/ In y tbl.
Proof.
  induction tbl as [|x tbl IH]; simpl.
  - intuition.
  - destruct (String.ltb (key r) (key x)); simpl; rewrite ?IH; intuition.
Qed.

Lemma key_ordered_insert_row (r : Row) (tbl : Table) :
  key_ordered tbl -> GET (key r) tbl = None ->
  key_ordered (insert_row r tbl).
Proof.
  induction 1 as [|x tbl Hs IH Hx]; intros Habs; simpl.
  - repeat constructor.
  - assert (Hkx : key x <> key r).
    { apply (proj1 (GET_none_iff _ _) Habs). now left. }
    assert (Habs' : GET (key r) tbl = None).
    { apply GET_none_iff. intros y Hy.
      apply (proj1 (GET_none_iff _ _) Habs). now right. }
    destruct (String.ltb (key r) (key x)) eqn:E.
    + constructor; [now constructor|].
      constructor; [exact E|].
      rewrite Forall_forall in *. intros y Hy.
      apply (ltb_trans _ (key x)); [exact E | now apply Hx].
    + constructor; [now apply IH|].
      rewrite Forall_forall in *. intros y Hy.
      apply In_insert_row in Hy. destruct Hy as [->|Hy]; [|now apply Hx].
      apply ltb_total; [congruence | exact E].
Qed.

(** The primary key: in a key-ordered table no two rows have the same
    key. *)
Lemma key_ordered_NoDup (tbl : Table) :
  key_ordered tbl -> NoDup (map key tbl).
Proof.
  induction 1 as [|x tbl _ IH Hx]; simpl; constructor; [|exact IH].
  intros Hin. apply in_map_iff in Hin. destruct Hin as [y [Hk Hy]].
  rewrite Forall_forall in Hx. specialize (Hx y Hy).
  unfold key_lt in Hx. rewrite Hk, ltb_irrefl in Hx. discriminate.
Qed.

Lemma key_ordered_DELETE (k : string) (tbl : Table) :
  key_ordered tbl -> key_ordered (DELETE k tbl).
Proof. apply key_ordered_filter. Qed.

Lemma key_ordered_CLEANUP (now : Z) (tbl : Table) :
  key_ordered tbl -> key_ordered (CLEANUP now tbl).
Proof. apply key_ordered_filter. Qed.

Lemma key_ordered_SET (k : string) (v : list byte) (e : option Z)
  (tbl : Table) :
  key_ordered tbl -> key_ordered (SET k v e tbl).
Proof.
  intros H. unfold SET. apply key_ordered_insert_row.
  - now apply key_ordered_DELETE.
  - apply GET_DELETE_same.
Qed.

Lemma key_ordered_RENAME (newKey oldKey : string) (tbl : Table) :
  key_ordered tbl -> key_ordered (RENAME newKey oldKey tbl).
Proof.
  intros H. unfold RENAME. destruct (GET oldKey tbl); [|exact H].
  apply key_ordered_insert_row.
  - now do 2 apply key_ordered_DELETE.
  - apply GET_DELETE_same.
Qed.

Lemma key_ordered_SET_EXPIRE (e : Z) (k : string) (tbl : Table) :
  key_ordered tbl -> key_ordered (SET_EXPIRE e k tbl).
Proof.
  unfold SET_EXPIRE.
  induction 1 as [|x tbl _ IH Hx]; simpl; constructor; [exact IH|].
  rewrite Forall_forall in *. intros y Hy.
  apply in_map_iff in Hy. destruct Hy as [z [<- Hz]].
  specialize (Hx z Hz). unfold key_lt in *.
  now destruct (has_key k x), (has_key k z).
Qed.

Lemma keeps_order_ret {A} (a : A) : keeps_order (ret a).
Proof. intros tbl H. exact H. Qed.

Lemma keeps_order_lift {A} (r : Result A) : keeps_order (lift r).
Proof. intros tbl H. exact H. Qed.

Lemma keeps_order_query {A} (stmt : Table -> A) : keeps_order (query stmt).
Proof. intros tbl H. exact H. Qed.

Lemma keeps_order_run (stmt : Table -> Table) :
  (forall tbl, key_ordered tbl -> key_ordered (stmt tbl)) ->
  keeps_order (run stmt).
Proof. intros Hs tbl H. now apply Hs. Qed.

Lemma keeps_order_bind {A B} (m : M A) (k : A -> M B) :
  keeps_order m -> (forall a, keeps_order (k a)) -> keeps_order (bind m k).
Proof.
  intros Hm Hk tbl H. unfold bind. specialize (Hm tbl H).
  destruct (m tbl) as [[a|e] tbl']; simpl in *; [now apply Hk | exact Hm].
Qed.

Lemma keeps_order_transaction {A} (fn : M A) :
  keeps_order fn -> keeps_order (transaction fn).
Proof.
  intros Hf tbl H. unfold transaction. specialize (Hf tbl H).
  destruct (fn tbl) as [[a|e] tbl']; simpl in *; [exact Hf | exact H].
Qed.

Lemma keeps_order_for_of {A} (xs : list A) (body : A -> M unit) :
  (forall x, keeps_order (body x)) -> keeps_order (for_of xs body).
Proof.
  intros Hb. induction xs as [|x xs IH]; simpl.
  - apply keeps_order_ret.
  - apply keeps_order_bind; [apply Hb | intros _; exact IH].
Qed.

Create HintDb order.

#[local] Hint Resolve keeps_order_ret keeps_order_lift keeps_order_query
  keeps_order_run keeps_order_bind keeps_order_transaction keeps_order_for_of
  key_ordered_DELETE key_ordered_CLEANUP key_ordered_SET key_ordered_RENAME
  key_ordered_SET_EXPIRE : order.

Section MethodsKeepOrder.

Variable encodeValue : MiftahValue -> Result (list byte).
Variable decodeValue : list byte -> Result MiftahValue.

Lemma delete_keeps_order (key : string) : keeps_order (delete key).
Proof. unfold delete. auto with order. Qed.

Lemma get_keeps_order (key : string) (now : Z) :
  keeps_order (get decodeValue key now).
Proof.
  unfold get. apply keeps_order_bind; [auto with order|].
  intros [r|]; [|auto with order].
  destruct (truthy (expires_at r) && (to_number (expires_at r) <=? now)).
  - apply keeps_order_bind; [apply delete_keeps_order | auto with order].
  - auto with order.
Qed.

Lemma set_keeps_order (key : string) (v : MiftahValue)
  (expiresAt : option Date) :
  keeps_order (set encodeValue key v expiresAt).
Proof.
  unfold set. apply keeps_order_bind; [auto with order|].
  intros bs. apply keeps_order_run. intros tbl. apply key_ordered_SET.
Qed.

Lemma rename_keeps_order (oldKey newKey : string) :
  keeps_order (rename oldKey newKey).
Proof.
  unfold rename. apply keeps_order_run. intros tbl. apply key_ordered_RENAME.
Qed.

Lemma setExpire_keeps_order (key : string) (expiresAt : Date) :
  keeps_order (setExpire key expiresAt).
Proof.
  unfold setExpire. apply keeps_order_run. intros tbl.
  apply key_ordered_SET_EXPIRE.
Qed.

Lemma cleanup_keeps_order (now : Z) : keeps_order (cleanup now).
Proof.
  unfold cleanup. apply keeps_order_run. intros tbl. apply key_ordered_CLEANUP.
Qed.

Lemma multiSet_keeps_order (entries : list Entry) :
  keeps_order (multiSet encodeValue entries).
Proof.
  unfold multiSet. apply keeps_order_transaction, keeps_order_for_of.
  intros entry. apply set_keeps_order.
Qed.

Lemma multiDelete_keeps_order (keys : list string) :
  keeps_order (multiDelete keys).
Proof.
  unfold multiDelete. apply keeps_order_transaction, keeps_order_for_of.
  intros key. apply delete_keeps_order.
Qed.

End MethodsKeepOrder.

(** ** Facts about the methods *)

Section MethodFacts.

Variable encodeValue : MiftahValue -> Result (list byte).
Variable decodeValue : list byte -> Result MiftahValue.
Variable like : string -> string -> bool.

(** [get] on a key without a row. *)
Lemma get_missing (key : string) (now : Z) (tbl : Table) :
  GET key tbl = None -> get decodeValue key now tbl = (Ok VNull, tbl).
Proof. intros H. unfold get, bind, query. now rewrite H. Qed.

(** [get] on a row whose expiry is a non-zero timestamp that has passed:
    the row is deleted. *)
Lemma get_expired (key : string) (now : Z) (tbl : Table) (r : Row) (e : Z) :
  GET key tbl = Some r -> expires_at r = Some e -> e <> 0 -> e <= now ->
  get decodeValue key now tbl = (Ok VNull, DELETE key tbl).
Proof.
  intros H He Hnz Hle. unfold get, bind, query. rewrite H, He. simpl.
  destruct (Z.eqb_spec e 0) as [|_]; [contradiction|].
  destruct (Z.leb_spec e now) as [_|]; [|lia].
  reflexivity.
Qed.

(** [get] on a row that the test of [get] does not take for expired. *)
Lemma get_live (key : string) (now : Z) (tbl : Table) (r : Row) :
  GET key tbl = Some r ->
  truthy (expires_at r) && (to_number (expires_at r) <=? now) = false ->
  get decodeValue key now tbl = (decodeValue (value r), tbl).
Proof.
  intros H Hlive. unfold get, bind, query. rewrite H, Hlive. reflexivity.
Qed.

Lemma exists_present (key : string) (tbl : Table) (r : Row) :
  GET key tbl = Some r -> exists_ key tbl = (Ok true, tbl).
Proof.
  intros H. unfold exists_, bind, query, ret. now rewrite EXISTS_GET, H.
Qed.

Lemma exists_absent (key : string) (tbl : Table) :
  GET key tbl = None -> exists_ key tbl = (Ok false, tbl).
Proof.
  intros H. unfold exists_, bind, query, ret. now rewrite EXISTS_GET, H.
Qed.

Lemma set_encoded (key : string) (v : MiftahValue) (expiresAt : option Date)
  (bs : list byte) (tbl : Table) :
  encodeValue v = Ok bs ->
  set encodeValue key v expiresAt tbl
  = (Ok tt, SET key bs (option_map getTime expiresAt) tbl).
Proof. intros H. unfold set, bind, lift, run. now rewrite H. Qed.

Lemma set_unencodable (key : string) (v : MiftahValue)
  (expiresAt : option Date) (e : MiftahError) (tbl : Table) :
  encodeValue v = Err e ->
  set encodeValue key v expiresAt tbl = (Err e, tbl).
Proof. intros H. unfold set, bind, lift. now rewrite H. Qed.

(** [getExpire] on a row with a non-zero expiry, on a row without expiry
    and on a key without a row. *)
Lemma getExpire_timestamp (key : string) (tbl : Table) (r : Row) (e : Z) :
  GET key tbl = Some r -> expires_at r = Some e -> e <> 0 ->
  getExpire key tbl = (Ok (Some (mkDate e)), tbl).
Proof.
  intros H He Hnz. unfold getExpire, bind, query, GET_EXPIRE, ret.
  rewrite H. simpl. rewrite He. simpl.
  now destruct (Z.eqb_spec e 0).
Qed.

Lemma getExpire_no_expiry (key : string) (tbl : Table) (r : Row) :
  GET key tbl = Some r -> expires_at r = None ->
  getExpire key tbl = (Ok None, tbl).
Proof.
  intros H He. unfold getExpire, bind, query, GET_EXPIRE, ret.
  rewrite H. simpl. now rewrite He.
Qed.

Lemma getExpire_missing (key : string) (tbl : Table) :
  GET key tbl = None -> getExpire key tbl = (Ok None, tbl).
Proof.
  intros H. unfold getExpire, bind, query, GET_EXPIRE, ret. now rewrite H.
Qed.

(** A row with a non-zero expiry that has passed is still there for
    [exists], and gone for [get]. *)
Lemma exists_ignores_expiry (key : string) (now : Z) (tbl : Table) (r : Row)
  (e : Z) :
  GET key tbl = Some r -> expires_at r = Some e -> e <> 0 -> e <= now ->
  exists_ key tbl = (Ok true, tbl)
  /\ get decodeValue key now tbl = (Ok VNull, DELETE key tbl).
Proof.
  intros H He Hnz Hle. split.
  - now apply exists_present with r.
  - now apply get_expired with r e.
Qed.

(** [getExpire] gives the same answer for a row without expiry and for a
    key without a row. *)
Lemma getExpire_ambiguous (key key' : string) (tbl : Table) (r : Row) :
  GET key tbl = Some r -> expires_at r = None -> GET key' tbl = None ->
  fst (getExpire key tbl) = fst (getExpire key' tbl).
Proof.
  intros H He H'.
  now rewrite (getExpire_no_expiry key tbl r H He), (getExpire_missing key' tbl H').
Qed.

End MethodFacts.

(* ================================================================== *)
(** ** Expiry on the read path *)

(** C1: [get] is claimed to delete a row and return null whenever the
    row's [expires_at] is set and not later than the current time.  After
    [set("k", "v", new Date(0))], at time 1000, the row has [expires_at]
    set to 0, which is not later than 1000; yet [get("k")] returns the
    stored value and the row stays in the table. *)
Theorem get_keeps_row_expiring_at_epoch :
  (set Encoding.encodeValue "k" (VString "v") (Some (mkDate 0)) ;;
   get Encoding.decodeValue "k" 1000) []
  = (Ok (VString "v"), epoch_table)
  /\ expired 1000 (mkRow "k" [x03; x01; "v"%byte] (Some 0)) = true.
Proof. split; reflexivity. Qed.

(** C5: [exists] is claimed to return true and [get] to return null for
    every row that is present but expired.  On the row of [epoch_table],
    expired since the epoch, [exists("k")] does return true, but at time
    1000 [get("k")] returns the stored value, not null. *)
Theorem exists_true_get_value_at_epoch :
  expired 1000 (mkRow "k" [x03; x01; "v"%byte] (Some 0)) = true
  /\ exists_ "k" epoch_table = (Ok true, epoch_table)
  /\ get Encoding.decodeValue "k" 1000 epoch_table
     = (Ok (VString "v"), epoch_table).
Proof. repeat split; reflexivity. Qed.

(** C7: [getExpire] is claimed to return the stored expiry timestamp when
    one is set.  The row of [epoch_table] has the expiry timestamp 0
    stored, and [getExpire("k")] returns null. *)
Theorem getExpire_null_at_epoch :
  GET_EXPIRE "k" epoch_table = Some (Some 0)
  /\ getExpire "k" epoch_table = (Ok None, epoch_table).
Proof. split; reflexivity. Qed.

(** C10: when the row of a key has [expires_at] equal to 0, [get] does not
    take the row for expired, whatever the current time: it returns what
    decoding the stored value gives and leaves the row in the table; and
    [getExpire] returns null for it.  Both follow from the truthiness test
    on [expires_at]. *)
Theorem epoch_expiry_is_falsy
  (decodeValue : list byte -> Result MiftahValue)
  (key : string) (now : Z) (tbl : Table) (r : Row) :
  GET key tbl = Some r ->
  expires_at r = Some 0 ->
  truthy (expires_at r) = false
  /\ get decodeValue key now tbl = (decodeValue (value r), tbl)
  /\ GET key (snd (get decodeValue key now tbl)) = Some r
  /\ getExpire key tbl = (Ok None, tbl).
Proof.
  intros H He.
  assert (Ht : truthy (expires_at r) = false) by now rewrite He.
  assert (Hg : get decodeValue key now tbl = (decodeValue (value r), tbl)).
  { apply get_live with (r := r); [exact H | now rewrite Ht]. }
  repeat split.
  - exact Ht.
  - exact Hg.
  - now rewrite Hg.
  - unfold getExpire, bind, query, GET_EXPIRE, ret.
    rewrite H. simpl. now rewrite Ht.
Qed.

Lemma epoch_expiry_is_falsy_witness :
  truthy (Some 0) = false
  /\ get Encoding.decodeValue "k" 1000 epoch_table
     = (Ok (VString "v"), epoch_table)
  /\ GET "k" (snd (get Encoding.decodeValue "k" 1000 epoch_table))
     = Some (mkRow "k" [x03; x01; "v"%byte] (Some 0))
  /\ getExpire "k" epoch_table = (Ok None, epoch_table).
Proof.
  exact (epoch_expiry_is_falsy Encoding.decodeValue "k" 1000 epoch_table
           (mkRow "k" [x03; x01; "v"%byte] (Some 0)) eq_refl eq_refl).
Defined.

(* ================================================================== *)
(** ** Rename *)

(** C6: [rename(oldKey, newKey)] does nothing when no row has [oldKey];
    otherwise it moves the row of [oldKey] to [newKey], with its value and
    expiry, replacing a row already at [newKey], and leaves the rows of all
    other keys alone.  In particular, for a value [v] the codec round-trips
    (such as the number 1), after [set("a", v); rename("a", "b")],
    [get("a")] returns null and [get("b")] returns [v]. *)
Theorem rename_relabels
  (encodeValue : MiftahValue -> Result (list byte))
  (decodeValue : list byte -> Result MiftahValue)
  (oldKey newKey : string) (tbl : Table) :
  (GET oldKey tbl = None -> rename oldKey newKey tbl = (Ok tt, tbl))
  /\ (forall r, GET oldKey tbl = Some r ->
      exists tbl',
        rename oldKey newKey tbl = (Ok tt, tbl')
        /\ GET newKey tbl' = Some (mkRow newKey (value r) (expires_at r))
        /\ (oldKey <> newKey -> GET oldKey tbl' = None)
        /\ (forall k, k <> oldKey -> k <> newKey -> GET k tbl' = GET k tbl))
  /\ (forall v bs now now',
      encodeValue v = Ok bs -> decodeValue bs = Ok v ->
      exists tbl',
        (set encodeValue "a" v None ;;
         rename "a" "b" ;;
         a <- get decodeValue "a" now ;;
         b <- get decodeValue "b" now' ;;
         ret (a, b)) tbl
        = (Ok (VNull, v), tbl')).
Proof.
  repeat split.
  - intros H. unfold rename, run. now rewrite GET_RENAME_absent.
  - intros r H. exists (RENAME newKey oldKey tbl). repeat split.
    + now apply GET_RENAME_new.
    + intros Hne. now apply GET_RENAME_old.
    + intros k Ho Hn. now apply GET_RENAME_other.
  - intros v bs now now' Henc Hdec.
    set (t1 := SET "a" bs None tbl).
    set (t2 := RENAME "b" "a" t1).
    assert (Ha : GET "a" t2 = None)
      by (apply GET_RENAME_old; discriminate).
    assert (Hb : GET "b" t2 = Some (mkRow "b" bs None)).
    { unfold t2.
      rewrite (GET_RENAME_new "b" "a" t1 (mkRow "a" bs None));
        [reflexivity | apply GET_SET_same]. }
    exists t2. unfold bind at 1.
    rewrite (set_encoded encodeValue "a" v None bs tbl Henc). simpl.
    fold t1. unfold bind at 1. unfold rename at 1, run. fold t2.
    unfold bind at 1. rewrite (get_missing decodeValue "a" now t2 Ha).
    unfold bind at 1.
    rewrite (get_live decodeValue "b" now' t2 _ Hb) by reflexivity.
    simpl. now rewrite Hdec.
Qed.

Lemma rename_relabels_witness :
  let tbl := [mkRow "b" [x00] None; mkRow "c" [x00] (Some 7)] in
  GET "a" tbl = None
  /\ rename "a" "b" tbl = (Ok tt, tbl)
  /\ GET "c" tbl = Some (mkRow "c" [x00] (Some 7))
  /\ (exists tbl',
        rename "c" "b" tbl = (Ok tt, tbl')
        /\ GET "b" tbl' = Some (mkRow "b" [x00] (Some 7))
        /\ GET "c" tbl' = None)
  /\ exists tbl',
       (set Encoding.encodeValue "a" (VNumber f64_one) None ;;
        rename "a" "b" ;;
        a <- get Encoding.decodeValue "a" 1000 ;;
        b <- get Encoding.decodeValue "b" 1000 ;;
        ret (a, b)) tbl
       = (Ok (VNull, VNumber f64_one), tbl').
Proof.
  intros tbl.
  destruct (rename_relabels Encoding.encodeValue Encoding.decodeValue
              "a" "b" tbl) as [Habsent [_ Hexample]].
  destruct (rename_relabels Encoding.encodeValue Encoding.decodeValue
              "c" "b" tbl) as [_ [Hpresent _]].
  split; [reflexivity|].
  split; [exact (Habsent eq_refl)|].
  split; [reflexivity|].
  split.
  - destruct (Hpresent _ eq_refl) as [tbl' [Hrun [Hnew [Hold _]]]].
    exists tbl'. repeat split; [exact Hrun | exact Hnew | apply Hold].
    discriminate.
  - exact (Hexample (VNumber f64_one) _ 1000 1000 eq_refl eq_refl).
Defined.

(* ================================================================== *)
(** ** Cleanup *)

Lemma CLEANUP_In (now : Z) (tbl : Table) (r : Row) :
  In r (CLEANUP now tbl) <-> In r tbl /\ expired now r = false.
Proof.
  unfold CLEANUP. rewrite filter_In.
  destruct (expired now r); simpl; intuition congruence.
Qed.

Lemma expired_iff (now : Z) (r : Row) :
  expired now r = true <-> exists e, expires_at r = Some e /\ e <= now.
Proof.
  unfold expired. destruct (expires_at r) as [e|].
  - rewrite Z.leb_le. split.
    + intros H. now exists e.
    + intros [e' [He' Hle]]. congruence.
  - split; [discriminate | intros [e [He _]]; discriminate].
Qed.

Lemma CLEANUP_fixed (now : Z) (tbl : Table) :
  (forall r, In r tbl -> expired now r = false) -> CLEANUP now tbl = tbl.
Proof.
  intros H. unfold CLEANUP.
  induction tbl as [|x tbl IH]; simpl; [reflexivity|].
  rewrite (H x) by now left. simpl. f_equal.
  apply IH. intros r Hin. apply H. now right.
Qed.

(** C8: [cleanup()] removes exactly the rows whose [expires_at] is set and
    not later than the current time, and keeps every other row; and when a
    second [cleanup()] runs at a time by which no row has expired that had
    not already expired at the first, it removes nothing, so [count()]
    gives the same number after it as before it. *)
Theorem cleanup_exact_and_idempotent
  (like : string -> string -> bool) (now : Z) (tbl : Table) :
  exists tbl',
    cleanup now tbl = (Ok tt, tbl')
    /\ (forall r, In r tbl' <->
                  In r tbl /\ ~ (exists e, expires_at r = Some e /\ e <= now))
    /\ (forall now' pattern,
        (forall r, In r tbl -> expired now' r = true -> expired now r = true) ->
        exists n,
          count like pattern tbl' = (Ok n, tbl')
          /\ (cleanup now' ;; count like pattern) tbl' = (Ok n, tbl')).
Proof.
  exists (CLEANUP now tbl).
  split; [reflexivity|]. split.
  - intros r. rewrite CLEANUP_In, <- expired_iff.
    destruct (expired now r); intuition congruence.
  - intros now' pattern Hnew.
    exists (COUNT_KEYS like pattern (CLEANUP now tbl)).
    split; [reflexivity|].
    unfold bind, cleanup, run, count, query.
    rewrite CLEANUP_fixed; [reflexivity|].
    intros r Hin. apply CLEANUP_In in Hin. destruct Hin as [Hin Hlive].
    destruct (expired now' r) eqn:E; [|reflexivity].
    rewrite (Hnew r Hin E) in Hlive. discriminate.
Qed.

Lemma cleanup_exact_and_idempotent_witness :
  let tbl := [mkRow "a" [x00] (Some 5); mkRow "b" [x00] None;
              mkRow "c" [x00] (Some 0); mkRow "d" [x00] (Some 50)] in
  exists tbl',
    cleanup 10 tbl = (Ok tt, tbl')
    /\ exists n,
         count sql_like default_pattern tbl' = (Ok n, tbl')
         /\ (cleanup 20 ;; count sql_like default_pattern) tbl' = (Ok n, tbl').
Proof.
  intros tbl.
  destruct (cleanup_exact_and_idempotent sql_like 10 tbl)
    as [tbl' [Hrun [_ Hidem]]].
  exists tbl'. split; [exact Hrun|].
  apply (Hidem 20 default_pattern).
  intros r Hin. simpl in Hin.
  destruct Hin as [<-|[<-|[<-|[<-|[]]]]]; vm_compute; congruence.
Defined.

(* ================================================================== *)
(** ** Pagination *)

Lemma fits_int64_iff (n : Z) :
  fits_int64 n = true <-> - 2 ^ 63 < n < 2 ^ 63.
Proof.
  unfold fits_int64. rewrite andb_true_iff, !Z.ltb_lt. tauto.
Qed.

Lemma pagination_in_range (like : string -> string -> bool)
  (limit page : Z) (pattern : string) (tbl : Table) :
  - 2 ^ 63 < limit < 2 ^ 63 ->
  - 2 ^ 63 < (page - 1) * limit < 2 ^ 63 ->
  pagination like limit page pattern tbl
  = (Ok (sql_limit limit
           (sql_offset ((page - 1) * limit) (KEYS like pattern tbl))),
     tbl).
Proof.
  intros Hl Ho. unfold pagination, query_checked, PAGINATION.
  now rewrite (proj2 (fits_int64_iff _) Hl), (proj2 (fits_int64_iff _) Ho).
Qed.

Lemma pagination_positive (like : string -> string -> bool)
  (limit page : Z) (pattern : string) (tbl : Table) :
  0 <= limit < 2 ^ 63 ->
  - 2 ^ 63 < (page - 1) * limit < 2 ^ 63 ->
  pagination like limit page pattern tbl
  = (Ok (firstn (Z.to_nat limit)
           (skipn (Z.to_nat ((page - 1) * limit)) (KEYS like pattern tbl))),
     tbl).
Proof.
  intros Hl Ho. rewrite pagination_in_range by lia.
  unfold sql_limit, sql_offset.
  destruct (Z.ltb_spec limit 0); [lia | reflexivity].
Qed.








(* ================================================================== *)
(** ** The codec round-trips *)

Module EncodingFacts.

Import Encoding.

Lemma to_N_byte_of_N (n : N) : (n < 256)%N -> Byte.to_N (byte_of_N n) = n.
Proof.
  intros Hn. unfold byte_of_N.
  destruct (Byte.of_N n) as [b|] eqn:E.
  - now apply Byte.to_of_N.
  - apply Byte.of_N_None_iff in E. lia.
Qed.

Lemma decode_varint_cons (b : byte) (bs : list byte) :
  decode_varint (b :: bs)
  = if (Byte.to_N b <? 128)%N then Ok (Byte.to_N b, bs)
    else match decode_varint bs with
         | Ok (hi, rest) => Ok ((Byte.to_N b - 128) + 128 * hi, rest)%N
         | Err e => Err e
         end.
Proof. reflexivity. Qed.

Lemma decode_varint_steps (fuel : nat) :
  forall (n : N) (rest : list byte),
    (n < 2 ^ N.of_nat fuel)%N ->
    decode_varint (varint (S fuel) n ++ rest) = Ok (n, rest).
Proof.
  induction fuel as [|fuel IH]; intros n rest Hn.
  - change (2 ^ N.of_nat 0)%N with 1%N in Hn.
    assert (n = 0%N) by lia. subst n. reflexivity.
  - change (varint (S (S fuel)) n)
      with (if (n <? 128)%N then [byte_of_N n]
            else byte_of_N (128 + n mod 128) :: varint (S fuel) (n / 128)).
    destruct (N.ltb_spec n 128) as [Hlt|Hge].
    + rewrite <- app_comm_cons, decode_varint_cons.
      rewrite to_N_byte_of_N by lia.
      destruct (N.ltb_spec n 128); [reflexivity | lia].
    + assert (Hmod : (n mod 128 < 128)%N) by (apply N.mod_lt; lia).
      assert (Hdiv : (n / 128 < 2 ^ N.of_nat fuel)%N).
      { rewrite Nnat.Nat2N.inj_succ, N.pow_succ_r' in Hn.
        apply N.Div0.div_lt_upper_bound. lia. }
      pose proof (N.Div0.div_mod n 128) as Hn'.
      rewrite <- app_comm_cons, decode_varint_cons, (IH _ rest Hdiv).
      generalize dependent (n / 128)%N. generalize dependent (n mod 128)%N.
      intros m Hm q _ Hq.
      rewrite to_N_byte_of_N by lia.
      destruct (N.ltb_spec (128 + m) 128); [lia|].
      f_equal. f_equal. lia.
Qed.

Lemma decode_encode_varint (n : N) (rest : list byte) :
  decode_varint (encode_varint n ++ rest) = Ok (n, rest).
Proof.
  unfold encode_varint. apply decode_varint_steps.
  rewrite Nnat.N2Nat.id. apply N.size_gt.
Qed.

Lemma decode_encode_blob (bs rest : list byte) :
  decode_blob (encode_blob bs ++ rest) = Ok (bs, rest).
Proof.
  unfold decode_blob, encode_blob.
  rewrite <- app_assoc, decode_encode_varint.
  rewrite length_app, Nnat.Nat2N.id.
  destruct (N.ltb_spec (N.of_nat (List.length bs + List.length rest))
              (N.of_nat (List.length bs))); [lia|].
  rewrite firstn_app, Nat.sub_diag, firstn_all. simpl. rewrite app_nil_r.
  rewrite skipn_app, Nat.sub_diag, skipn_all. reflexivity.
Qed.

Lemma decode_encode_int (t : Z) (rest : list byte) :
  decode_int (encode_int t ++ rest) = Ok (t, rest).
Proof.
  unfold encode_int, decode_int.
  destruct (Z.ltb_spec t 0); simpl; rewrite decode_encode_varint;
    f_equal; f_equal; lia.
Qed.

Lemma with_prefix_ok (pre : list byte) (r : Result (list byte))
  (bs : list byte) :
  with_prefix pre r = Ok bs -> exists body, r = Ok body /\ bs = pre ++ body.
Proof.
  destruct r as [body|e]; simpl; intros H; [|discriminate].
  exists body. split; [reflexivity | congruence].
Qed.

Lemma encode_seq_cons_ok (r : Result (list byte))
  (parts : list (Result (list byte))) (body : list byte) :
  encode_seq (r :: parts) = Ok body ->
  exists bs rest, r = Ok bs /\ encode_seq parts = Ok rest /\ body = bs ++ rest.
Proof.
  simpl. destruct r as [bs|e]; [|discriminate].
  destruct (encode_seq parts) as [rest|e]; [|discriminate].
  intros H. exists bs, rest. repeat split. congruence.
Qed.

(** What [decode] does on each tag. *)
Lemma decode_array (fuel : nat) (rest : list byte) :
  decode (S fuel) (TAG_ARRAY :: rest)
  = match decode_varint rest with
    | Ok (n, rest') =>
        match decode_seq (decode fuel) (N.to_nat n) rest' with
        | Ok (items, rest'') => Ok (VArray items, rest'')
        | Err e => Err e
        end
    | Err e => Err e
    end.
Proof. reflexivity. Qed.

Lemma decode_object (fuel : nat) (rest : list byte) :
  decode (S fuel) (TAG_OBJECT :: rest)
  = match decode_varint rest with
    | Ok (n, rest') =>
        match decode_fields (decode fuel) (N.to_nat n) rest' with
        | Ok (fields, rest'') => Ok (VObject fields, rest'')
        | Err e => Err e
        end
    | Err e => Err e
    end.
Proof. reflexivity. Qed.

Lemma decode_string (fuel : nat) (rest : list byte) :
  decode (S fuel) (TAG_STRING :: rest)
  = match decode_blob rest with
    | Ok (s, rest') => Ok (VString (string_of_list_byte s), rest')
    | Err e => Err e
    end.
Proof. reflexivity. Qed.

Lemma decode_binary (fuel : nat) (rest : list byte) :
  decode (S fuel) (TAG_BINARY :: rest)
  = match decode_blob rest with
    | Ok (b, rest') => Ok (VBinary b, rest')
    | Err e => Err e
    end.
Proof. reflexivity. Qed.

Lemma decode_date (fuel : nat) (rest : list byte) :
  decode (S fuel) (TAG_DATE :: rest)
  = match decode_int rest with
    | Ok (t, rest') => Ok (VDate t, rest')
    | Err e => Err e
    end.
Proof. reflexivity. Qed.

Lemma max_depth_le (A : Type) (d : A -> nat) (xs : list A) (n : nat) :
  (fold_right Nat.max O (map d xs) <= n)%nat
  <-> Forall (fun x => (d x <= n)%nat) xs.
Proof.
  induction xs as [|x xs IH]; simpl.
  - split; [constructor | lia].
  - rewrite Forall_cons_iff, <- IH. lia.
Qed.

Lemma decode_seq_encode_seq (fuel : nat) (items : list MiftahValue) :
  Forall round_trips items ->
  Forall (fun v => (depth v <= fuel)%nat) items ->
  forall body rest,
    encode_seq (map encode items) = Ok body ->
    decode_seq (decode fuel) (List.length items) (body ++ rest)
    = Ok (items, rest).
Proof.
  induction 1 as [|x items Hx _ IH]; intros Hd body rest Henc.
  - simpl in Henc. injection Henc as <-. reflexivity.
  - apply Forall_cons_iff in Hd. destruct Hd as [Hdx Hd].
    change (map encode (x :: items)) with (encode x :: map encode items)
      in Henc.
    apply encode_seq_cons_ok in Henc.
    destruct Henc as [bs [tl [Hbs [Htl ->]]]].
    simpl. rewrite <- app_assoc, (Hx bs Hbs fuel (tl ++ rest) Hdx).
    now rewrite (IH Hd tl rest Htl).
Qed.

Lemma decode_fields_encode_seq (fuel : nat)
  (fields : list (string * MiftahValue)) :
  Forall (fun kv => round_trips (snd kv)) fields ->
  Forall (fun kv => (depth (snd kv) <= fuel)%nat) fields ->
  forall body rest,
    encode_seq
      (map (fun kv =>
              with_prefix (encode_blob (list_byte_of_string (fst kv)))
                (encode (snd kv)))
         fields) = Ok body ->
    decode_fields (decode fuel) (List.length fields) (body ++ rest)
    = Ok (fields, rest).
Proof.
  induction 1 as [|[k x] fields Hx _ IH]; intros Hd body rest Henc.
  - simpl in Henc. injection Henc as <-. reflexivity.
  - apply Forall_cons_iff in Hd. destruct Hd as [Hdx Hd].
    rewrite map_cons in Henc.
    apply encode_seq_cons_ok in Henc.
    destruct Henc as [bs [tl [Hbs [Htl ->]]]].
    apply with_prefix_ok in Hbs. destruct Hbs as [xs [Hxs ->]].
    simpl in Hx, Hdx, Hxs. simpl decode_fields. simpl List.length.
    cbn [decode_fields].
    rewrite <- !app_assoc, decode_encode_blob.
    rewrite (Hx xs Hxs fuel (tl ++ rest) Hdx).
    rewrite (IH Hd tl rest Htl).
    now rewrite string_of_list_byte_of_string.
Qed.

Lemma encode_round_trips (v : MiftahValue) : round_trips v.
Proof.
  induction v using MiftahValue_nested_ind; intros enc Henc fuel rest Hfuel;
    (destruct fuel as [|fuel]; [simpl in Hfuel; lia|]).
  - injection Henc as <-. reflexivity.
  - injection Henc as <-. now destruct b.
  - injection Henc as <-. now destruct x.
  - injection Henc as <-.
    rewrite <- app_comm_cons, decode_string, decode_encode_blob.
    now rewrite string_of_list_byte_of_string.
  - injection Henc as <-.
    now rewrite <- app_comm_cons, decode_binary, decode_encode_blob.
  - injection Henc as <-.
    now rewrite <- app_comm_cons, decode_date, decode_encode_int.
  - simpl in Henc, Hfuel. apply with_prefix_ok in Henc.
    destruct Henc as [body [Hbody ->]].
    rewrite <- !app_comm_cons, decode_array, <- app_assoc.
    rewrite decode_encode_varint, Nnat.Nat2N.id.
    rewrite (decode_seq_encode_seq fuel items H); [reflexivity | | exact Hbody].
    apply max_depth_le. lia.
  - simpl in Henc, Hfuel. apply with_prefix_ok in Henc.
    destruct Henc as [body [Hbody ->]].
    rewrite <- !app_comm_cons, decode_object, <- app_assoc.
    rewrite decode_encode_varint, Nnat.Nat2N.id.
    rewrite (decode_fields_encode_seq fuel fields H);
      [reflexivity | | exact Hbody].
    apply (max_depth_le _ (fun kv => depth (snd kv))). lia.
  - discriminate.
Qed.

Lemma encode_seq_depth (A : Type) (d : A -> nat)
  (enc : A -> Result (list byte)) (xs : list A) :
  Forall (fun x => forall bs, enc x = Ok bs -> (d x <= List.length bs)%nat) xs ->
  forall body,
    encode_seq (map enc xs) = Ok body ->
    (fold_right Nat.max O (map d xs) <= List.length body)%nat.
Proof.
  induction 1 as [|x xs Hx _ IH]; intros body Henc; simpl; [lia|].
  rewrite map_cons in Henc. apply encode_seq_cons_ok in Henc.
  destruct Henc as [bs [tl [Hbs [Htl ->]]]].
  specialize (Hx bs Hbs). specialize (IH tl Htl).
  rewrite length_app. lia.
Qed.

Lemma encode_depth_bounded (v : MiftahValue) : depth_bounded v.
Proof.
  induction v as [| | | | | |items IH|fields IH|]
    using MiftahValue_nested_ind; intros enc Henc;
    try (injection Henc as <-; simpl; lia).
  - simpl in Henc. apply with_prefix_ok in Henc.
    destruct Henc as [body [Hbody ->]].
    pose proof (encode_seq_depth _ depth encode items IH body Hbody).
    simpl. rewrite length_app. lia.
  - simpl in Henc. apply with_prefix_ok in Henc.
    destruct Henc as [body [Hbody ->]].
    assert (Hd : (fold_right Nat.max O
                    (map (fun kv => depth (snd kv)) fields)
                  <= List.length body)%nat).
    { apply (encode_seq_depth _ (fun kv => depth (snd kv))
               (fun kv =>
                  with_prefix (encode_blob (list_byte_of_string (fst kv)))
                    (encode (snd kv)))); [|exact Hbody].
      apply Forall_forall. intros kv Hin bs Hbs.
      apply with_prefix_ok in Hbs. destruct Hbs as [xs [Hxs ->]].
      rewrite Forall_forall in IH. specialize (IH kv Hin xs Hxs).
      rewrite length_app. lia. }
    simpl. rewrite length_app. lia.
  - discriminate.
Qed.

Lemma decodeValue_encode (v : MiftahValue) (bs : list byte) :
  encode v = Ok bs -> decodeValue bs = Ok v.
Proof.
  intros Henc. unfold decodeValue.
  rewrite <- (app_nil_r bs) at 2.
  now rewrite (encode_round_trips v bs Henc (List.length bs) [])
    by now apply encode_depth_bounded.
Qed.

(** [encode] succeeds on the supported values and on no other, and the
    only error it raises is [ValidationError]. *)
Lemma encode_seq_supported (A : Type) (sup : A -> bool)
  (enc : A -> Result (list byte)) (xs : list A) :
  Forall (fun x => (sup x = true -> exists bs, enc x = Ok bs)
                   /\ (sup x = false -> enc x = Err ValidationError)) xs ->
  (forallb sup xs = true -> exists body, encode_seq (map enc xs) = Ok body)
  /\ (forallb sup xs = false ->
      encode_seq (map enc xs) = Err ValidationError).
Proof.
  induction 1 as [|x xs [Hok Herr] _ [IHok IHerr]]; simpl.
  - split; [now exists [] | discriminate].
  - destruct (sup x).
    + destruct (Hok eq_refl) as [bs ->]. simpl. split.
      * intros Hall. destruct (IHok Hall) as [body ->]. now eexists.
      * intros Hall. now rewrite (IHerr Hall).
    + rewrite (Herr eq_refl). split; [discriminate | reflexivity].
Qed.

Lemma encode_supported (v : MiftahValue) :
  (supported v = true -> exists bs, encode v = Ok bs)
  /\ (supported v = false -> encode v = Err ValidationError).
Proof.
  induction v as [| | | | | |items IH|fields IH|]
    using MiftahValue_nested_ind;
    try (split; [intros _; eexists; reflexivity | discriminate]).
  - destruct (encode_seq_supported _ supported encode items IH)
      as [Hok Herr].
    simpl. split; intros Hs.
    + destruct (Hok Hs) as [body ->]. now eexists.
    + now rewrite (Herr Hs).
  - simpl.
    destruct (encode_seq_supported _ (fun kv => supported (snd kv))
                (fun kv =>
                   with_prefix (encode_blob (list_byte_of_string (fst kv)))
                     (encode (snd kv))) fields) as [Hok Herr].
    { apply Forall_forall. intros kv Hin.
      rewrite Forall_forall in IH. destruct (IH kv Hin) as [Hk He].
      split; intros Hs.
      - destruct (Hk Hs) as [bs ->]. now eexists.
      - now rewrite (He Hs). }
    split; intros Hs.
    + destruct (Hok Hs) as [body ->]. now eexists.
    + now rewrite (Herr Hs).
  - split; [discriminate | reflexivity].
Qed.

End EncodingFacts.

(** C9: the codec round-trips every supported value: encoding a supported
    value succeeds, and decoding the bytes gives back the same value, hence
    a value of the same kind.  Two supported values with the same encoding
    are equal; so the number 0, the boolean false and null, which differ,
    have three different encodings and each decodes back to itself. *)
Theorem codec_round_trip (v : MiftahValue) :
  Encoding.supported v = true ->
  exists bs,
    Encoding.encodeValue v = Ok bs
    /\ Encoding.decodeValue bs = Ok v
    /\ (forall v', Encoding.decodeValue bs = Ok v' -> kind_of v' = kind_of v)
    /\ (forall w, Encoding.encodeValue w = Ok bs -> w = v).
Proof.
  intros Hs.
  destruct (proj1 (EncodingFacts.encode_supported v) Hs) as [bs Henc].
  pose proof (EncodingFacts.decodeValue_encode v bs Henc) as Hdec.
  exists bs. repeat split.
  - exact Henc.
  - exact Hdec.
  - intros v' Hv'. congruence.
  - intros w Hw. apply EncodingFacts.decodeValue_encode in Hw. congruence.
Qed.

Lemma codec_round_trip_witness :
  (exists bs,
     Encoding.encodeValue (VNumber f64_zero) = Ok bs
     /\ Encoding.decodeValue bs = Ok (VNumber f64_zero))
  /\ (exists bs,
       Encoding.encodeValue (VBool false) = Ok bs
       /\ Encoding.decodeValue bs = Ok (VBool false))
  /\ (exists bs,
       Encoding.encodeValue VNull = Ok bs
       /\ Encoding.decodeValue bs = Ok VNull)
  /\ (exists bs,
       Encoding.encodeValue
         (VObject [("id", VNumber f64_one);
                   ("tags", VArray [VString "a"; VBinary [xff]; VDate (-1)])])
       = Ok bs
       /\ Encoding.decodeValue bs
          = Ok (VObject
                  [("id", VNumber f64_one);
                   ("tags",
                    VArray [VString "a"; VBinary [xff]; VDate (-1)])])).
Proof.
  repeat split;
    match goal with
    | |- exists bs, Encoding.encodeValue ?v = _ /\ _ =>
        destruct (codec_round_trip v eq_refl) as [bs [Henc [Hdec _]]];
        exists bs; split; [exact Henc | exact Hdec]
    end.
Defined.

(* ================================================================== *)
(** ** Malformed input *)

(** C3, as stated, fails: a non-positive limit does not make [pagination]
    fail.  [pagination(0, 1)] returns the empty list, and
    [pagination(3, 0)] returns the first three keys. *)
Lemma pagination_accepts_non_positive_limit_and_page :
  pagination sql_like 0 1 default_pattern ten_keys_table
  = (Ok [], ten_keys_table)
  /\ pagination sql_like 3 0 default_pattern ten_keys_table
     = (Ok ["k01"; "k02"; "k03"], ten_keys_table).
Proof. split; reflexivity. Qed.

(* ================================================================== *)
(** ** Batches *)

Section Batches.

Variable encodeValue : MiftahValue -> Result (list byte).

Lemma for_of_set_fails (entries : list Entry) :
  forall tbl,
    (exists entry e, In entry entries
                     /\ encodeValue (entry_value entry) = Err e) ->
    exists e tbl',
      for_of entries (set_entry encodeValue) tbl = (Err e, tbl')
      /\ exists entry, In entry entries
                       /\ encodeValue (entry_value entry) = Err e.
Proof.
  induction entries as [|x entries IH]; intros tbl [entry [e [Hin He]]].
  - destruct Hin.
  - destruct (encodeValue (entry_value x)) as [bs|ex] eqn:Hx.
    + destruct Hin as [->|Hin]; [congruence|].
      destruct (IH (SET (entry_key x) bs
                      (option_map getTime (entry_expiresAt x)) tbl))
        as [e' [tbl' [Hrun [entry' [Hin' He']]]]].
      { now exists entry, e. }
      exists e', tbl'. split.
      * simpl. unfold bind at 1. unfold set_entry at 1.
        now rewrite (set_encoded encodeValue _ _ _ bs tbl Hx).
      * exists entry'. split; [now right | exact He'].
    + exists ex, tbl. split.
      * simpl. unfold bind at 1. unfold set_entry at 1.
        now rewrite (set_unencodable encodeValue _ _ _ ex tbl Hx).
      * exists x. split; [now left | exact Hx].
Qed.

Lemma for_of_set_succeeds (entries : list Entry) :
  forall tbl,
    (forall entry, In entry entries ->
                   exists bs, encodeValue (entry_value entry) = Ok bs) ->
    exists tbl',
      for_of entries (set_entry encodeValue) tbl = (Ok tt, tbl')
      /\ (forall before entry after,
          entries = before ++ entry :: after ->
          (forall later, In later after ->
                         entry_key later <> entry_key entry) ->
          exists bs,
            encodeValue (entry_value entry) = Ok bs
            /\ GET (entry_key entry) tbl' = Some (entry_row entry bs))
      /\ (forall k,
          (forall entry, In entry entries -> entry_key entry <> k) ->
          GET k tbl' = GET k tbl).
Proof.
  induction entries as [|x entries IH]; intros tbl Hall.
  - exists tbl. split; [reflexivity|]. split.
    + intros [|? ?] ? ? H; discriminate.
    + reflexivity.
  - destruct (Hall x (or_introl eq_refl)) as [bs Hx].
    set (tbl1 := SET (entry_key x) bs
                   (option_map getTime (entry_expiresAt x)) tbl).
    destruct (IH tbl1) as [tbl' [Hrun [Hlast Hother]]].
    { intros entry Hin. apply Hall. now right. }
    exists tbl'. split; [|split].
    + simpl. unfold bind at 1. unfold set_entry at 1.
      now rewrite (set_encoded encodeValue _ _ _ bs tbl Hx).
    + intros before entry after Heq Hafter.
      destruct before as [|y before]; simpl in Heq;
        injection Heq as Hhead Htail.
      * subst entry after. exists bs. split; [exact Hx|].
        rewrite Hother by (intros later Hin; now apply Hafter).
        apply GET_SET_same.
      * subst y. now apply (Hlast before entry after).
    + intros k Hk. rewrite Hother.
      * apply GET_SET_other. intros ->. now apply (Hk x (or_introl eq_refl)).
      * intros entry Hin. apply Hk. now right.
Qed.

End Batches.

(** C3, amended: an operation that receives a value the codec cannot
    encode fails rather than proceeding: [set] fails with the error
    [encodeValue] throws and writes nothing, and so does a [multiSet]
    that holds such an entry.  A non-positive [limit] or [page] does not
    make [pagination] fail, and [pagination] never fails with a
    [ValidationError]: it checks nothing itself.  When [limit] and the
    offset [(page - 1) * limit] are safe integers, below [2 ^ 53] in
    absolute value, it returns no keys
    for [limit = 0], the first [limit] matching keys for [limit > 0] and
    [page <= 0], and all matching keys from the offset on for
    [limit < 0]. *)
Theorem unencodable_value_fails_non_positive_page_passes
  (encodeValue : MiftahValue -> Result (list byte))
  (like : string -> string -> bool)
  (key : string) (v : MiftahValue) (expiresAt : option Date)
  (limit page : Z) (pattern : string) (tbl : Table) :
  (forall e, encodeValue v = Err e ->
     set encodeValue key v expiresAt tbl = (Err e, tbl)
     /\ forall entries,
          In (mkEntry key v expiresAt) entries ->
          exists e', multiSet encodeValue entries tbl = (Err e', tbl))
  /\ fst (pagination like limit page pattern tbl) <> Err ValidationError
  /\ (- 2 ^ 53 < limit < 2 ^ 53 ->
      - 2 ^ 53 < (page - 1) * limit < 2 ^ 53 ->
      exists all ks,
        keys like pattern tbl = (Ok all, tbl)
        /\ pagination like limit page pattern tbl = (Ok ks, tbl)
        /\ (limit = 0 -> ks = [])
        /\ (0 < limit -> page <= 0 -> ks = firstn (Z.to_nat limit) all)
        /\ (limit < 0 -> ks = skipn (Z.to_nat ((page - 1) * limit)) all)).
Proof.
  split; [|split].
  - intros e Henc. split; [now apply set_unencodable|].
    intros entries Hin.
    destruct (for_of_set_fails encodeValue entries tbl)
      as [e' [tbl' [Hrun _]]].
    { now exists (mkEntry key v expiresAt), e. }
    exists e'. unfold multiSet, transaction.
    unfold set_entry in Hrun. now rewrite Hrun.
  - unfold pagination, query_checked, PAGINATION.
    destruct (fits_int64 limit && fits_int64 ((page - 1) * limit));
      discriminate.
  - intros Hl Ho. exists (KEYS like pattern tbl). eexists.
    split; [reflexivity|].
    split; [apply pagination_in_range; lia|].
    unfold sql_limit, sql_offset. split; [|split].
    + intros ->. reflexivity.
    + intros Hpos Hpage. destruct (Z.ltb_spec limit 0); [lia|].
      replace (Z.to_nat ((page - 1) * limit)) with 0%nat by nia.
      reflexivity.
    + intros Hneg. destruct (Z.ltb_spec limit 0); [reflexivity | lia].
Qed.

Lemma unencodable_value_fails_non_positive_page_passes_witness :
  set Encoding.encodeValue "k" (VArray [VNull; VFunction]) None ten_keys_table
  = (Err ValidationError, ten_keys_table)
  /\ (exists e',
        multiSet Encoding.encodeValue
          [mkEntry "a" VNull None;
           mkEntry "k" (VArray [VNull; VFunction]) None] ten_keys_table
        = (Err e', ten_keys_table))
  /\ exists all ks,
       keys sql_like default_pattern ten_keys_table = (Ok all, ten_keys_table)
       /\ pagination sql_like 3 (-2) default_pattern ten_keys_table
          = (Ok ks, ten_keys_table)
       /\ ks = firstn 3 all.
Proof.
  destruct (unencodable_value_fails_non_positive_page_passes
              Encoding.encodeValue sql_like "k" (VArray [VNull; VFunction])
              None 3 (-2) default_pattern ten_keys_table)
    as [Hbad [_ Hpage]].
  destruct (Hbad ValidationError eq_refl) as [Hset Hmulti].
  split; [exact Hset|]. split.
  - apply Hmulti. simpl. tauto.
  - destruct Hpage as [all [ks [Hk [Hp [_ [Hfirst _]]]]]]; try lia.
    exists all, ks. repeat split; try assumption. apply Hfirst; lia.
Defined.

(** C2, as stated, fails: after a batch that is rolled back, an entry of
    the batch can be present in the store.  The store already holds the
    row of ["x"] with the number 1; [multiSet] of the entry
    [{key: "x", value: 1}] and of an entry whose value cannot be encoded
    fails, and afterwards ["x"] exists and [get("x")] returns 1. *)
Lemma multiSet_rollback_keeps_earlier_row :
  let tbl := [mkRow "x" [x02; x3f; xf0; x00; x00; x00; x00; x00; x00] None] in
  let entries := [mkEntry "x" (VNumber f64_one) None;
                  mkEntry "y" VFunction None] in
  multiSet Encoding.encodeValue entries tbl = (Err ValidationError, tbl)
  /\ fst (exists_ "x" (snd (multiSet Encoding.encodeValue entries tbl)))
     = Ok true
  /\ fst (get Encoding.decodeValue "x" 1000
            (snd (multiSet Encoding.encodeValue entries tbl)))
     = Ok (VNumber f64_one).
Proof. repeat split; reflexivity. Qed.

(** C2, amended: [multiSet(entries)] applies the per-key [set] calls in one
    atomic transaction.  If the [set] of some entry fails (the encoding of
    its value throws), [multiSet] fails with the error of that entry and
    the table is exactly what it was before the call: the batch has
    written nothing, and a key of the batch has a row afterwards only if
    it had that row before.  If none fails, every entry is applied in the
    order of the batch: afterwards each key of the batch has the row
    written by the last entry for that key, and the rows of other keys are
    as before. *)
Theorem multiSet_atomic
  (encodeValue : MiftahValue -> Result (list byte))
  (entries : list Entry) (tbl : Table) :
  ((exists entry e, In entry entries
                    /\ encodeValue (entry_value entry) = Err e) ->
   exists e,
     multiSet encodeValue entries tbl = (Err e, tbl)
     /\ exists entry, In entry entries
                      /\ encodeValue (entry_value entry) = Err e)
  /\ ((forall entry, In entry entries ->
                     exists bs, encodeValue (entry_value entry) = Ok bs) ->
      exists tbl',
        multiSet encodeValue entries tbl = (Ok tt, tbl')
        /\ (forall before entry after,
            entries = before ++ entry :: after ->
            (forall later, In later after ->
                           entry_key later <> entry_key entry) ->
            exists bs,
              encodeValue (entry_value entry) = Ok bs
              /\ GET (entry_key entry) tbl' = Some (entry_row entry bs))
        /\ (forall k,
            (forall entry, In entry entries -> entry_key entry <> k) ->
            GET k tbl' = GET k tbl)).
Proof.
  split.
  - intros Hfail.
    destruct (for_of_set_fails encodeValue entries tbl Hfail)
      as [e [tbl' [Hrun Hentry]]].
    exists e. split; [|exact Hentry].
    unfold multiSet, transaction.
    change (for_of entries (set_entry encodeValue) tbl = (Err e, tbl'))
      in Hrun.
    unfold set_entry in Hrun. now rewrite Hrun.
  - intros Hall.
    destruct (for_of_set_succeeds encodeValue entries tbl Hall)
      as [tbl' [Hrun Hprops]].
    exists tbl'. split; [|exact Hprops].
    unfold multiSet, transaction.
    unfold set_entry in Hrun. now rewrite Hrun.
Qed.

Lemma multiSet_atomic_witness :
  let tbl := [mkRow "x" [x00] None] in
  let failing := [mkEntry "x" (VNumber f64_one) None;
                  mkEntry "y" VFunction None] in
  let passing := [mkEntry "x" (VNumber f64_one) None;
                  mkEntry "y" VNull (Some (mkDate 9));
                  mkEntry "x" (VBool false) None] in
  (exists e, multiSet Encoding.encodeValue failing tbl = (Err e, tbl))
  /\ exists tbl',
       multiSet Encoding.encodeValue passing tbl = (Ok tt, tbl')
       /\ exists bs,
            Encoding.encodeValue (VBool false) = Ok bs
            /\ GET "x" tbl' = Some (mkRow "x" bs None).
Proof.
  intros tbl failing passing. split.
  - destruct (proj1 (multiSet_atomic Encoding.encodeValue failing tbl))
      as [e [Hrun _]].
    + exists (mkEntry "y" VFunction None), ValidationError.
      split; [right; left; reflexivity | reflexivity].
    + now exists e.
  - destruct (proj2 (multiSet_atomic Encoding.encodeValue passing tbl))
      as [tbl' [Hrun [Hlast _]]].
    + intros entry [<-|[<-|[<-|[]]]]; eexists; reflexivity.
    + exists tbl'. split; [exact Hrun|].
      apply (Hlast [mkEntry "x" (VNumber f64_one) None;
                    mkEntry "y" VNull (Some (mkDate 9))]
               (mkEntry "x" (VBool false) None) []);
        [reflexivity | intros later []].
Defined.

(* ================================================================== *)
(** * Further properties of the methods *)

(** ** More facts about the statements *)

Lemma DELETE_insert_row_same (r : Row) (tbl : Table) :
  DELETE (key r) (insert_row r tbl) = DELETE (key r) tbl.
Proof.
  unfold DELETE. induction tbl as [|x tbl IH]; simpl.
  - now rewrite has_key_self.
  - destruct (String.ltb (key r) (key x)); simpl.
    + now rewrite has_key_self.
    + now rewrite IH.
Qed.

Lemma DELETE_idempotent (k : string) (tbl : Table) :
  DELETE k (DELETE k tbl) = DELETE k tbl.
Proof. apply DELETE_absent, GET_DELETE_same. Qed.

Lemma DELETE_SET_same (k : string) (v : list byte) (e : option Z)
  (tbl : Table) :
  DELETE k (SET k v e tbl) = DELETE k tbl.
Proof.
  unfold SET.
  rewrite (DELETE_insert_row_same (mkRow k v e)). apply DELETE_idempotent.
Qed.

Lemma GET_SET_EXPIRE_same (e : Z) (k : string) (tbl : Table) :
  GET k (SET_EXPIRE e k tbl)
  = option_map (fun r => mkRow (key r) (value r) (Some e)) (GET k tbl).
Proof.
  unfold GET, SET_EXPIRE. induction tbl as [|x tbl IH]; simpl; [reflexivity|].
  destruct (has_key k x) eqn:E; simpl.
  - unfold has_key in *. simpl. now rewrite E.
  - now rewrite E.
Qed.

Lemma GET_SET_EXPIRE_other (e : Z) (k k' : string) (tbl : Table) :
  k' <> k -> GET k' (SET_EXPIRE e k tbl) = GET k' tbl.
Proof.
  intros Hne. unfold GET, SET_EXPIRE.
  induction tbl as [|x tbl IH]; simpl; [reflexivity|].
  destruct (has_key k x) eqn:E.
  - apply has_key_iff in E.
    assert (E' : has_key k' x = false)
      by (apply has_key_false_iff; congruence).
    unfold has_key in *. simpl. now rewrite E'.
  - destruct (has_key k' x); [reflexivity | exact IH].
Qed.


(** ** What a read returns depends on the row of its key only *)

Section Reads.

Variable decodeValue : list byte -> Result MiftahValue.

Lemma get_result_by_row (key : string) (now : Z) (tbl tbl' : Table) :
  GET key tbl = GET key tbl' ->
  fst (get decodeValue key now tbl) = fst (get decodeValue key now tbl').
Proof.
  intros H. unfold get, bind, query. rewrite H.
  destruct (GET key tbl') as [r|]; [|reflexivity].
  now destruct (truthy (expires_at r) && (to_number (expires_at r) <=? now)).
Qed.

Lemma observe_by_row (key : string) (now : Z) (tbl tbl' : Table) :
  GET key tbl = GET key tbl' ->
  observe decodeValue key now tbl = observe decodeValue key now tbl'.
Proof.
  intros H. unfold observe.
  rewrite (get_result_by_row key now tbl tbl' H).
  unfold exists_, getExpire, bind, query, ret, GET_EXPIRE.
  rewrite !EXISTS_GET, H. simpl.
  now destruct (option_map expires_at (GET key tbl')).
Qed.

(** The table [get] leaves: the one it found, or that one without the
    rows of [key]; the latter only when it returns null. *)
Lemma get_table (key : string) (now : Z) (tbl : Table) :
  snd (get decodeValue key now tbl) = tbl
  \/ get decodeValue key now tbl = (Ok VNull, DELETE key tbl).
Proof.
  unfold get, bind, query.
  destruct (GET key tbl) as [r|]; [|now left].
  destruct (truthy (expires_at r) && (to_number (expires_at r) <=? now));
    [now right | now left].
Qed.

Lemma get_other_row (key k : string) (now : Z) (tbl : Table) :
  k <> key -> GET k (snd (get decodeValue key now tbl)) = GET k tbl.
Proof.
  intros Hne. destruct (get_table key now tbl) as [->| ->]; [reflexivity|].
  now apply GET_DELETE_other.
Qed.

End Reads.

(* ================================================================== *)
(** ** Writing and reading one key *)

(** X1: a value written with [set] is read back by [get].  For a value
    the codec round-trips, after [set(key, v, expiresAt)] a [get(key)]
    returns [v] and leaves the table alone, provided [get] does not take
    the row for expired: no [expiresAt] was given, or it is later than the
    current time, or its time value is 0. *)
Theorem set_get_round_trip
  (encodeValue : MiftahValue -> Result (list byte))
  (decodeValue : list byte -> Result MiftahValue)
  (key : string) (v : MiftahValue) (expiresAt : option Date)
  (bs : list byte) (now : Z) (tbl : Table) :
  encodeValue v = Ok bs ->
  decodeValue bs = Ok v ->
  (forall d, expiresAt = Some d -> getTime d = 0 \/ now < getTime d) ->
  exists tbl',
    set encodeValue key v expiresAt tbl = (Ok tt, tbl')
    /\ get decodeValue key now tbl' = (Ok v, tbl').
Proof.
  intros Henc Hdec Hlive.
  exists (SET key bs (option_map getTime expiresAt) tbl).
  split; [now apply set_encoded|].
  rewrite (get_live decodeValue key now _ _ (GET_SET_same _ _ _ _)).
  - simpl. now rewrite Hdec.
  - simpl. destruct expiresAt as [d|]; [|reflexivity]. simpl.
    destruct (Hlive d eq_refl) as [H0|Hlt].
    + now rewrite H0.
    + destruct (Z.leb_spec (getTime d) now); [lia|].
      apply andb_false_r.
Qed.

Lemma set_get_round_trip_witness :
  exists tbl',
    set Encoding.encodeValue "session" (VNumber f64_one)
      (Some (mkDate 5000)) ten_keys_table = (Ok tt, tbl')
    /\ get Encoding.decodeValue "session" 1000 tbl'
       = (Ok (VNumber f64_one), tbl').
Proof.
  apply (set_get_round_trip Encoding.encodeValue Encoding.decodeValue
           "session" (VNumber f64_one) (Some (mkDate 5000))
           [x02; x3f; xf0; x00; x00; x00; x00; x00; x00] 1000 ten_keys_table).
  - reflexivity.
  - reflexivity.
  - intros d Hd. injection Hd as <-. right. simpl. lia.
Defined.

(** X2: a value written with an expiry that has already passed is never
    read.  After [set(key, v, expiresAt)] with a non-zero time value not
    later than the current time, [get(key)] returns null and removes the
    row, so that the table is the one before the [set] without [key], and
    [exists(key)] is false. *)
Theorem set_past_expiry_reclaimed_by_get
  (encodeValue : MiftahValue -> Result (list byte))
  (decodeValue : list byte -> Result MiftahValue)
  (key : string) (v : MiftahValue) (d : Date)
  (bs : list byte) (now : Z) (tbl : Table) :
  encodeValue v = Ok bs ->
  getTime d <> 0 ->
  getTime d <= now ->
  (set encodeValue key v (Some d) ;; get decodeValue key now) tbl
  = (Ok VNull, DELETE key tbl)
  /\ exists_ key (DELETE key tbl) = (Ok false, DELETE key tbl).
Proof.
  intros Henc Hnz Hle. split.
  - unfold bind at 1. rewrite (set_encoded encodeValue _ _ _ bs tbl Henc).
    rewrite (get_expired decodeValue key now _ _ (getTime d)
               (GET_SET_same _ _ _ _) eq_refl Hnz Hle).
    now rewrite DELETE_SET_same.
  - apply exists_absent, GET_DELETE_same.
Qed.

Lemma set_past_expiry_reclaimed_by_get_witness :
  (set Encoding.encodeValue "k05" (VBool true) (Some (mkDate 999)) ;;
   get Encoding.decodeValue "k05" 1000) ten_keys_table
  = (Ok VNull, DELETE "k05" ten_keys_table)
  /\ exists_ "k05" (DELETE "k05" ten_keys_table)
     = (Ok false, DELETE "k05" ten_keys_table).
Proof.
  apply (set_past_expiry_reclaimed_by_get Encoding.encodeValue
           Encoding.decodeValue "k05" (VBool true) (mkDate 999)
           [x01; x01] 1000 ten_keys_table); [reflexivity | simpl; lia ..].
Defined.

(** X3: the last write wins.  Two successful [set] calls on the same key
    leave the table the second call alone would leave: nothing of the
    first value or of its expiry survives. *)
Theorem set_last_write_wins
  (encodeValue : MiftahValue -> Result (list byte))
  (key : string) (v1 v2 : MiftahValue) (e1 e2 : option Date)
  (bs1 bs2 : list byte) (tbl : Table) :
  encodeValue v1 = Ok bs1 ->
  encodeValue v2 = Ok bs2 ->
  (set encodeValue key v1 e1 ;; set encodeValue key v2 e2) tbl
  = set encodeValue key v2 e2 tbl.
Proof.
  intros H1 H2. unfold bind at 1.
  rewrite (set_encoded encodeValue _ _ _ bs1 tbl H1).
  rewrite !(set_encoded encodeValue _ _ _ bs2 _ H2).
  f_equal. unfold SET at 1. now rewrite DELETE_SET_same.
Qed.

Lemma set_last_write_wins_witness :
  (set Encoding.encodeValue "k03" (VString "old") (Some (mkDate 77)) ;;
   set Encoding.encodeValue "k03" (VBool false) None) ten_keys_table
  = set Encoding.encodeValue "k03" (VBool false) None ten_keys_table.
Proof.
  apply (set_last_write_wins Encoding.encodeValue "k03" (VString "old")
           (VBool false) (Some (mkDate 77)) None
           [x03; x03; "o"%byte; "l"%byte; "d"%byte] [x01; x00]
           ten_keys_table); reflexivity.
Defined.

(** X4: the methods that write one key leave every other key alone.  After
    [set], [delete] or [setExpire] on [key], what [get], [exists] and
    [getExpire] return for a different key is what they returned before,
    whether the call succeeded or threw. *)
Theorem single_key_writes_frame
  (encodeValue : MiftahValue -> Result (list byte))
  (decodeValue : list byte -> Result MiftahValue)
  (key other : string) (v : MiftahValue) (expiresAt : option Date)
  (d : Date) (now : Z) (tbl : Table) :
  other <> key ->
  observe decodeValue other now (snd (set encodeValue key v expiresAt tbl))
  = observe decodeValue other now tbl
  /\ observe decodeValue other now (snd (delete key tbl))
     = observe decodeValue other now tbl
  /\ observe decodeValue other now (snd (setExpire key d tbl))
     = observe decodeValue other now tbl.
Proof.
  intros Hne. repeat split; apply observe_by_row.
  - destruct (encodeValue v) as [bs|e] eqn:Henc.
    + rewrite (set_encoded encodeValue _ _ _ bs tbl Henc). simpl.
      now apply GET_SET_other.
    + now rewrite (set_unencodable encodeValue _ _ _ e tbl Henc).
  - simpl. now apply GET_DELETE_other.
  - simpl. now apply GET_SET_EXPIRE_other.
Qed.

Lemma single_key_writes_frame_witness :
  observe Encoding.decodeValue "k02" 1000
    (snd (set Encoding.encodeValue "k01" (VString "x") None ten_keys_table))
  = observe Encoding.decodeValue "k02" 1000 ten_keys_table
  /\ observe Encoding.decodeValue "k02" 1000 (snd (delete "k01" ten_keys_table))
     = observe Encoding.decodeValue "k02" 1000 ten_keys_table
  /\ observe Encoding.decodeValue "k02" 1000
       (snd (setExpire "k01" (mkDate 5) ten_keys_table))
     = observe Encoding.decodeValue "k02" 1000 ten_keys_table.
Proof.
  apply (single_key_writes_frame Encoding.encodeValue Encoding.decodeValue
           "k01" "k02" (VString "x") None (mkDate 5) 1000 ten_keys_table).
  discriminate.
Defined.

(** X5: [delete(key)] never fails; afterwards [get(key)] returns null
    without touching the table, [exists(key)] is false and [getExpire(key)]
    is null.  On a key that has no row it changes nothing. *)
Theorem delete_removes_key
  (decodeValue : list byte -> Result MiftahValue)
  (key : string) (now : Z) (tbl : Table) :
  exists tbl',
    delete key tbl = (Ok tt, tbl')
    /\ get decodeValue key now tbl' = (Ok VNull, tbl')
    /\ exists_ key tbl' = (Ok false, tbl')
    /\ getExpire key tbl' = (Ok None, tbl')
    /\ (GET key tbl = None -> tbl' = tbl).
Proof.
  exists (DELETE key tbl).
  pose proof (GET_DELETE_same key tbl) as Habs.
  repeat split.
  - now apply get_missing.
  - now apply exists_absent.
  - now apply getExpire_missing.
  - apply DELETE_absent.
Qed.

Lemma delete_removes_key_witness :
  exists tbl',
    delete "absent" ten_keys_table = (Ok tt, tbl')
    /\ get Encoding.decodeValue "absent" 1000 tbl' = (Ok VNull, tbl')
    /\ tbl' = ten_keys_table.
Proof.
  destruct (delete_removes_key Encoding.decodeValue "absent" 1000
              ten_keys_table) as [tbl' [Hrun [Hget [_ [_ Hnoop]]]]].
  exists tbl'. repeat split; [exact Hrun | exact Hget | now apply Hnoop].
Defined.

(** X6: [set] replaces the expiry of the key.  After a successful
    [set(key, v, expiresAt)], [getExpire(key)] returns null when no
    [expiresAt] was passed, and the [expiresAt] that was passed when it is
    a valid date with a time value below or above 0 (which excludes 0 and
    the NaN of an Invalid Date), whatever expiry the key had before. *)
Theorem set_replaces_expiry
  (encodeValue : MiftahValue -> Result (list byte))
  (key : string) (v : MiftahValue) (expiresAt : option Date)
  (bs : list byte) (tbl : Table) :
  encodeValue v = Ok bs ->
  (forall d, expiresAt = Some d -> getTime d < 0 \/ 0 < getTime d) ->
  exists tbl',
    set encodeValue key v expiresAt tbl = (Ok tt, tbl')
    /\ getExpire key tbl' = (Ok expiresAt, tbl').
Proof.
  intros Henc Hnz.
  exists (SET key bs (option_map getTime expiresAt) tbl).
  split; [now apply set_encoded|].
  destruct expiresAt as [[t]|].
  - rewrite (getExpire_timestamp key _ _ t (GET_SET_same _ _ _ _) eq_refl);
      [reflexivity|].
    specialize (Hnz (mkDate t) eq_refl). simpl in Hnz. lia.
  - now rewrite (getExpire_no_expiry key _ _ (GET_SET_same _ _ _ _) eq_refl).
Qed.

Lemma set_replaces_expiry_witness :
  let tbl := [mkRow "k" [x00] (Some 42)] in
  (exists tbl',
     set Encoding.encodeValue "k" VNull None tbl = (Ok tt, tbl')
     /\ getExpire "k" tbl' = (Ok None, tbl'))
  /\ (exists tbl',
        set Encoding.encodeValue "k" VNull (Some (mkDate 9000)) tbl
        = (Ok tt, tbl')
        /\ getExpire "k" tbl' = (Ok (Some (mkDate 9000)), tbl'))
  /\ exists tbl',
       set Encoding.encodeValue "k" VNull (Some (mkDate (-1))) tbl
       = (Ok tt, tbl')
       /\ getExpire "k" tbl' = (Ok (Some (mkDate (-1))), tbl').
Proof.
  intros tbl. split; [|split].
  - apply (set_replaces_expiry Encoding.encodeValue "k" VNull None [x00] tbl);
      [reflexivity | discriminate].
  - apply (set_replaces_expiry Encoding.encodeValue "k" VNull
             (Some (mkDate 9000)) [x00] tbl); [reflexivity|].
    intros d Hd. injection Hd as <-. right. simpl. lia.
  - apply (set_replaces_expiry Encoding.encodeValue "k" VNull
             (Some (mkDate (-1))) [x00] tbl); [reflexivity|].
    intros d Hd. injection Hd as <-. left. simpl. lia.
Defined.

(* ================================================================== *)
(** ** Changing the expiry of a key *)

Lemma DELETE_SET_EXPIRE_same (e : Z) (k : string) (tbl : Table) :
  DELETE k (SET_EXPIRE e k tbl) = DELETE k tbl.
Proof.
  unfold DELETE, SET_EXPIRE. induction tbl as [|x tbl IH]; simpl;
    [reflexivity|].
  destruct (has_key k x) eqn:E.
  - unfold has_key in *. simpl. rewrite E. simpl. exact IH.
  - rewrite E. simpl. now rewrite IH.
Qed.

Lemma setExpire_present (key : string) (d : Date) (tbl : Table) (r : Row) :
  GET key tbl = Some r ->
  setExpire key d tbl = (Ok tt, SET_EXPIRE (getTime d) key tbl)
  /\ GET key (SET_EXPIRE (getTime d) key tbl)
     = Some (mkRow key (value r) (Some (getTime d))).
Proof.
  intros H. split; [reflexivity|].
  rewrite GET_SET_EXPIRE_same, H. simpl. now rewrite (GET_some_key _ _ _ H).
Qed.



(** X8: [setExpire] decides what the next [get] does, whatever expiry the
    row had.  With an expiry later than the current time, [get(key)]
    decodes the stored value and keeps the row, also when the row had
    expired but was not yet reclaimed; with a non-zero expiry that has
    passed, [get(key)] returns null and the rows of the key are gone. *)
Theorem setExpire_then_get
  (decodeValue : list byte -> Result MiftahValue)
  (key : string) (d : Date) (now : Z) (tbl : Table) (r : Row) :
  GET key tbl = Some r ->
  (now < getTime d ->
   exists tbl',
     setExpire key d tbl = (Ok tt, tbl')
     /\ get decodeValue key now tbl' = (decodeValue (value r), tbl'))
  /\ (getTime d <> 0 -> getTime d <= now ->
      (setExpire key d ;; get decodeValue key now) tbl
      = (Ok VNull, DELETE key tbl)).
Proof.
  intros H.
  destruct (setExpire_present key d tbl r H) as [Hrun Hrow].
  split.
  - intros Hlt. exists (SET_EXPIRE (getTime d) key tbl).
    split; [exact Hrun|].
    rewrite (get_live decodeValue key now _ _ Hrow); [reflexivity|].
    simpl. destruct (Z.leb_spec (getTime d) now); [lia|].
    apply andb_false_r.
  - intros Hnz Hle. unfold bind at 1. rewrite Hrun.
    rewrite (get_expired decodeValue key now _ _ (getTime d) Hrow
               eq_refl Hnz Hle).
    f_equal. apply DELETE_SET_EXPIRE_same.
Qed.

Lemma setExpire_then_get_witness :
  let tbl := [mkRow "k" [x01; x01] (Some 10)] in
  (exists tbl',
     setExpire "k" (mkDate 5000) tbl = (Ok tt, tbl')
     /\ get Encoding.decodeValue "k" 1000 tbl' = (Ok (VBool true), tbl'))
  /\ (setExpire "k" (mkDate 500) ;; get Encoding.decodeValue "k" 1000) tbl
     = (Ok VNull, []).
Proof.
  intros tbl.
  destruct (setExpire_then_get Encoding.decodeValue "k" (mkDate 5000) 1000
              tbl (mkRow "k" [x01; x01] (Some 10)) eq_refl) as [Hlive _].
  destruct (setExpire_then_get Encoding.decodeValue "k" (mkDate 500) 1000
              tbl (mkRow "k" [x01; x01] (Some 10)) eq_refl) as [_ Hpast].
  split.
  - apply Hlive. simpl. lia.
  - apply Hpast; simpl; lia.
Defined.

(* ================================================================== *)
(** ** Inverses on a key-ordered table *)

Lemma key_ordered_head_absent (x : Row) (tbl : Table) :
  key_ordered (x :: tbl) -> GET (key x) tbl = None.
Proof.
  intros H. apply StronglySorted_inv in H. destruct H as [_ Hx].
  apply GET_none_iff. intros y Hy Hk.
  rewrite Forall_forall in Hx. specialize (Hx y Hy).
  unfold key_lt in Hx. rewrite Hk, ltb_irrefl in Hx. discriminate.
Qed.

(** Taking the row of a key out of a key-ordered table and putting it back
    gives the table. *)
Lemma insert_row_DELETE (k : string) (r : Row) (tbl : Table) :
  key_ordered tbl -> GET k tbl = Some r ->
  insert_row r (DELETE k tbl) = tbl.
Proof.
  intros Hs. induction Hs as [|x tbl Hs IH Hx]; intros H; [discriminate|].
  pose proof (key_ordered_head_absent x tbl
                (SSorted_cons x Hs Hx)) as Habs.
  unfold GET in H. simpl in H. unfold DELETE. simpl.
  destruct (has_key k x) eqn:E; simpl.
  - injection H as <-. apply has_key_iff in E. subst k.
    fold (DELETE (key x) tbl). rewrite (DELETE_absent _ _ Habs).
    destruct tbl as [|y tbl]; [reflexivity|]. simpl.
    apply Forall_inv in Hx. unfold key_lt in Hx. now rewrite Hx.
  - fold (DELETE k tbl). fold (GET k tbl) in H.
    assert (Hlt : String.ltb (key x) (key r) = true).
    { rewrite Forall_forall in Hx. apply (Hx r). now apply GET_some_In in H. }
    destruct (String.ltb (key r) (key x)) eqn:Hrx.
    + pose proof (ltb_trans _ _ _ Hlt Hrx) as Hxx.
      rewrite ltb_irrefl in Hxx. discriminate.
    + f_equal. now apply IH.
Qed.

(** X9: on a key that has no row, [set] followed by [delete] leaves the
    table as it was. *)
Theorem set_then_delete_restores
  (encodeValue : MiftahValue -> Result (list byte))
  (key : string) (v : MiftahValue) (expiresAt : option Date)
  (bs : list byte) (tbl : Table) :
  encodeValue v = Ok bs ->
  GET key tbl = None ->
  (set encodeValue key v expiresAt ;; delete key) tbl = (Ok tt, tbl).
Proof.
  intros Henc Habs. unfold bind at 1.
  rewrite (set_encoded encodeValue _ _ _ bs tbl Henc).
  unfold delete, run. now rewrite DELETE_SET_same, DELETE_absent.
Qed.

Lemma set_then_delete_restores_witness :
  (set Encoding.encodeValue "k055" (VString "tmp") (Some (mkDate 3)) ;;
   delete "k055") ten_keys_table
  = (Ok tt, ten_keys_table).
Proof.
  apply (set_then_delete_restores Encoding.encodeValue "k055" (VString "tmp")
           (Some (mkDate 3)) [x03; x03; "t"%byte; "m"%byte; "p"%byte]
           ten_keys_table); reflexivity.
Defined.

(** X10: on a key-ordered table, [rename] can be undone and a rename of a
    key to itself does nothing: when [oldKey] has a row and [newKey] has
    none, [rename(oldKey, newKey)] followed by [rename(newKey, oldKey)]
    gives back the table; and [rename(key, key)] leaves the table as it
    is, with or without a row for [key]. *)
Theorem rename_back_and_self (oldKey newKey : string) (tbl : Table) :
  key_ordered tbl ->
  (GET oldKey tbl <> None -> GET newKey tbl = None ->
   (rename oldKey newKey ;; rename newKey oldKey) tbl = (Ok tt, tbl))
  /\ rename oldKey oldKey tbl = (Ok tt, tbl).
Proof.
  intros Hs. split.
  - intros Hold Hnew. destruct (GET oldKey tbl) as [r|] eqn:H; [|congruence].
    unfold bind, rename, run. f_equal.
    assert (Hne : newKey <> oldKey) by (intros ->; congruence).
    set (moved := mkRow newKey (value r) (expires_at r)).
    assert (H1 : RENAME newKey oldKey tbl
                 = insert_row moved (DELETE oldKey tbl)).
    { unfold RENAME. rewrite H. fold moved. f_equal.
      apply DELETE_absent. now rewrite GET_DELETE_other. }
    assert (Habs : GET newKey (DELETE oldKey tbl) = None)
      by now rewrite GET_DELETE_other.
    pose proof (GET_insert_row_same moved _ Habs) as Hget.
    pose proof (DELETE_insert_row_same moved (DELETE oldKey tbl)) as Hdel.
    simpl in Hget, Hdel.
    rewrite H1. unfold RENAME.
    rewrite Hget, Hdel, (DELETE_absent _ _ Habs).
    rewrite DELETE_idempotent. simpl.
    rewrite <- (GET_some_key _ _ _ H) at 1.
    replace (mkRow (key r) (value r) (expires_at r)) with r
      by now destruct r.
    now apply insert_row_DELETE.
  - unfold rename, run. f_equal. unfold RENAME.
    destruct (GET oldKey tbl) as [r|] eqn:H; [|reflexivity].
    rewrite DELETE_idempotent.
    rewrite <- (GET_some_key _ _ _ H) at 1.
    replace (mkRow (key r) (value r) (expires_at r)) with r
      by now destruct r.
    now apply insert_row_DELETE.
Qed.

Lemma ten_keys_table_ordered : key_ordered ten_keys_table.
Proof.
  unfold ten_keys_table.
  apply (keeps_order_for_of ten_keys
           (fun k => set Encoding.encodeValue k VNull None)).
  - intros k. apply set_keeps_order.
  - constructor.
Qed.

Lemma rename_back_and_self_witness :
  (rename "k04" "zz" ;; rename "zz" "k04") ten_keys_table
  = (Ok tt, ten_keys_table)
  /\ rename "k04" "k04" ten_keys_table = (Ok tt, ten_keys_table).
Proof.
  destruct (rename_back_and_self "k04" "zz" ten_keys_table
              ten_keys_table_ordered) as [Hback Hself].
  split; [|exact Hself].
  apply Hback; [discriminate | reflexivity].
Defined.

(* ================================================================== *)
(** ** Listing and counting keys *)

Lemma exists_true_iff (k : string) (tbl : Table) :
  exists_ k tbl = (Ok true, tbl) <-> exists r, In r tbl /\ key r = k.
Proof.
  split.
  - intros H. destruct (GET k tbl) as [r|] eqn:E.
    + exists r. split; [now apply GET_some_In in E | now apply GET_some_key in E].
    + rewrite (exists_absent k tbl E) in H. discriminate.
  - intros [r [Hin Hk]]. destruct (GET k tbl) as [r'|] eqn:E.
    + now apply exists_present with r'.
    + exfalso. exact (proj1 (GET_none_iff k tbl) E r Hin Hk).
Qed.

(** X11: [keys(pattern)] lists the stored keys that match the pattern and
    nothing else, without regard to expiry: a key is in the list exactly
    when [exists] is true for it and the pattern matches it.  In
    particular a key whose row has expired and was not reclaimed is
    listed. *)
Theorem keys_lists_existing_keys
  (like : string -> string -> bool) (pattern : string) (tbl : Table) :
  exists ks,
    keys like pattern tbl = (Ok ks, tbl)
    /\ forall k, In k ks <->
                 exists_ k tbl = (Ok true, tbl) /\ like pattern k = true.
Proof.
  exists (KEYS like pattern tbl). split; [reflexivity|].
  intros k. rewrite exists_true_iff. unfold KEYS, matching.
  rewrite in_map_iff. split.
  - intros [r [Hk Hin]]. apply filter_In in Hin. destruct Hin as [Hin Hl].
    subst k. split; [now exists r | exact Hl].
  - intros [[r [Hin Hk]] Hl]. exists r. split; [exact Hk|].
    apply filter_In. split; [exact Hin | now rewrite Hk].
Qed.

Lemma firstn_skipn_add {A} (a b : nat) (xs : list A) :
  firstn (a + b) xs = firstn a xs ++ firstn b (skipn a xs).
Proof.
  revert xs. induction a as [|a IH]; intros xs; [reflexivity|].
  destruct xs as [|x xs]; simpl.
  - now rewrite firstn_nil.
  - now rewrite IH.
Qed.

(** X12: the pages of [pagination] tile the list of [keys].  For
    [limit > 0], as long as [limit] and [n * limit] are safe integers,
    below [2 ^ 53],
    the pages 1 to [n] put end to end are the first [n * limit] keys that
    [keys(pattern)] returns, so each matching key is on exactly one page,
    in the order of [keys]; they are all the keys as soon as [n * limit]
    reaches [count(pattern)], which is the length of that list; and a page
    whose offset is a safe integer at or beyond [count(pattern)] is
    empty. *)
Theorem pagination_pages_tile_keys
  (like : string -> string -> bool) (limit : Z) (pattern : string)
  (tbl : Table) (n : nat) :
  0 < limit ->
  limit < 2 ^ 53 ->
  Z.of_nat n * limit < 2 ^ 53 ->
  exists all pages,
    keys like pattern tbl = (Ok all, tbl)
    /\ count like pattern tbl = (Ok (Z.of_nat (List.length all)), tbl)
    /\ Forall2
         (fun page ks =>
            pagination like limit (Z.of_nat page) pattern tbl = (Ok ks, tbl))
         (seq 1 n) pages
    /\ List.concat pages = firstn (n * Z.to_nat limit) all
    /\ (Z.of_nat (List.length all) <= Z.of_nat n * limit ->
        List.concat pages = all)
    /\ (forall page,
        Z.of_nat (List.length all) <= (page - 1) * limit ->
        (page - 1) * limit < 2 ^ 53 ->
        pagination like limit page pattern tbl = (Ok [], tbl)).
Proof.
  intros Hl Hlmax Hnmax.
  set (all := KEYS like pattern tbl).
  set (l := Z.to_nat limit).
  assert (Hpage : forall p : nat, (p < n)%nat ->
             pagination like limit (Z.of_nat (S p)) pattern tbl
             = (Ok (firstn l (skipn (p * l) all)), tbl)).
  { intros p Hp. rewrite pagination_positive by nia. fold all.
    replace (Z.to_nat ((Z.of_nat (S p) - 1) * limit)) with (p * l)%nat
      by (unfold l; nia).
    reflexivity. }
  exists all, (map (fun p => firstn l (skipn (p * l) all)) (seq 0 n)).
  assert (Hcat : forall m,
             List.concat
               (map (fun p => firstn l (skipn (p * l) all)) (seq 0 m))
             = firstn (m * l) all).
  { induction m as [|m IH]; [reflexivity|].
    rewrite seq_S, map_app, concat_app, IH. simpl.
    rewrite app_nil_r, (Nat.add_comm l (m * l)).
    symmetry. apply firstn_skipn_add. }
  split; [reflexivity|].
  split; [unfold count, query, COUNT_KEYS, all, KEYS; now rewrite length_map|].
  split.
  { rewrite <- seq_shift.
    assert (Hin : forall p, In p (seq 0 n) -> (p < n)%nat)
      by (intros p Hp; apply in_seq in Hp; lia).
    induction (seq 0 n) as [|p ps IH]; simpl; constructor.
    - apply Hpage, Hin. now left.
    - apply IH. intros q Hq. apply Hin. now right. }
  split; [apply Hcat|]. split.
  - intros Hall. rewrite Hcat. apply firstn_all2. unfold l. nia.
  - intros page Hbeyond Hfit. rewrite pagination_positive by lia. fold all.
    rewrite skipn_all2 by nia. now rewrite firstn_nil.
Qed.

Lemma pagination_pages_tile_keys_witness :
  exists pages,
    Forall2
      (fun page ks =>
         pagination sql_like 4 (Z.of_nat page) default_pattern ten_keys_table
         = (Ok ks, ten_keys_table))
      [1%nat; 2%nat; 3%nat] pages
    /\ List.concat pages = ten_keys.
Proof.
  destruct (pagination_pages_tile_keys sql_like 4 default_pattern
              ten_keys_table 3 ltac:(lia) ltac:(lia) ltac:(lia))
    as [all [pages [Hkeys [_ [Hpages [_ [Hall _]]]]]]].
  exists pages. split; [exact Hpages|].
  injection Hkeys as <-. apply Hall. vm_compute. discriminate.
Defined.

(* ================================================================== *)
(** ** Cleanup beside the lazy expiry of [get] *)

Lemma GET_filter_absent (f : Row -> bool) (k : string) (tbl : Table) :
  GET k tbl = None -> GET k (filter f tbl) = None.
Proof.
  intros H. apply GET_none_iff. intros r Hin.
  apply filter_In in Hin. exact (proj1 (GET_none_iff k tbl) H r (proj1 Hin)).
Qed.

Lemma GET_CLEANUP (k : string) (now : Z) (tbl : Table) :
  key_ordered tbl ->
  GET k (CLEANUP now tbl)
  = match GET k tbl with
    | Some r => if expired now r then None else Some r
    | None => None
    end.
Proof.
  intros Hs. induction Hs as [|x tbl Hs IH Hx]; [reflexivity|].
  pose proof (key_ordered_head_absent x tbl (SSorted_cons x Hs Hx)) as Habs.
  unfold GET, CLEANUP in *. simpl.
  destruct (has_key k x) eqn:E.
  - apply has_key_iff in E. subst k.
    destruct (expired now x); simpl.
    + now apply GET_filter_absent.
    + now rewrite has_key_self.
  - destruct (expired now x); simpl; [exact IH|].
    rewrite E. exact IH.
Qed.

(** X13: [cleanup] does not change what [get] returns.  On a key-ordered
    table, a [get(key)] that runs after a [cleanup] returns what it would
    have returned without the [cleanup]: the rows [cleanup] removes are
    rows [get] answers null for.  The exception is a row whose expiry is
    the time value 0, which [cleanup] removes and [get] still reads. *)
Theorem cleanup_invisible_to_get
  (decodeValue : list byte -> Result MiftahValue)
  (key : string) (cleaned now : Z) (tbl : Table) :
  key_ordered tbl ->
  cleaned <= now ->
  (forall r, GET key tbl = Some r -> expires_at r <> Some 0) ->
  fst ((cleanup cleaned ;; get decodeValue key now) tbl)
  = fst (get decodeValue key now tbl).
Proof.
  intros Hs Hle Hnz. unfold bind at 1, cleanup at 1, run.
  pose proof (GET_CLEANUP key cleaned tbl Hs) as Hc.
  destruct (GET key tbl) as [r|] eqn:H.
  - destruct (expired cleaned r) eqn:E.
    + rewrite (get_missing decodeValue key now _ Hc).
      apply expired_iff in E. destruct E as [e [He Hec]].
      assert (e <> 0) by (intros ->; now apply (Hnz r)).
      now rewrite (get_expired decodeValue key now tbl r e H He) by lia.
    + apply get_result_by_row. congruence.
  - apply get_result_by_row. congruence.
Qed.

Lemma cleanup_invisible_to_get_witness :
  let tbl := [mkRow "a" [x01; x01] (Some 5); mkRow "b" [x01; x00] (Some 50)] in
  fst ((cleanup 10 ;; get Encoding.decodeValue "a" 20) tbl)
  = fst (get Encoding.decodeValue "a" 20 tbl)
  /\ fst ((cleanup 10 ;; get Encoding.decodeValue "b" 20) tbl)
     = fst (get Encoding.decodeValue "b" 20 tbl).
Proof.
  intros tbl.
  assert (Hs : key_ordered tbl) by (repeat constructor).
  split.
  - apply (cleanup_invisible_to_get Encoding.decodeValue "a" 10 20 tbl Hs);
      [lia|].
    intros r Hr. injection Hr as <-. discriminate.
  - apply (cleanup_invisible_to_get Encoding.decodeValue "b" 10 20 tbl Hs);
      [lia|].
    intros r Hr. injection Hr as <-. discriminate.
Defined.

Lemma filter_partition_length {A} (f : A -> bool) (xs : list A) :
  (List.length (filter f xs) + List.length (filter (fun x => negb (f x)) xs)
   = List.length xs)%nat.
Proof.
  induction xs as [|x xs IH]; simpl; [reflexivity|].
  destruct (f x); simpl; lia.
Qed.

Lemma filter_swap {A} (f g : A -> bool) (xs : list A) :
  filter f (filter g xs) = filter g (filter f xs).
Proof.
  induction xs as [|x xs IH]; simpl; [reflexivity|].
  destruct (f x) eqn:Ef, (g x) eqn:Eg; simpl; rewrite ?Ef, ?Eg, IH; reflexivity.
Qed.

Lemma filter_none {A} (f : A -> bool) (xs : list A) :
  (forall x, In x xs -> f x = false) -> filter f xs = [].
Proof.
  intros H. induction xs as [|x xs IH]; simpl; [reflexivity|].
  rewrite (H x) by now left. apply IH. intros y Hy. apply H. now right.
Qed.

Lemma filter_length_le {A} (f g : A -> bool) (xs : list A) :
  (forall x, f x = true -> g x = true) ->
  (List.length (filter f xs) <= List.length (filter g xs))%nat.
Proof.
  intros H. induction xs as [|x xs IH]; simpl; [lia|].
  destruct (f x) eqn:Ef.
  - rewrite (H x Ef). simpl. lia.
  - destruct (g x); simpl; lia.
Qed.

Lemma expired_mono (t t' : Z) (r : Row) :
  t <= t' -> expired t r = true -> expired t' r = true.
Proof.
  unfold expired. destruct (expires_at r) as [e|]; [|discriminate].
  rewrite !Z.leb_le. lia.
Qed.

Lemma COUNT_EXPIRED_CLEANUP (like : string -> string -> bool)
  (counted cleaned : Z) (pattern : string) (tbl : Table) :
  counted <= cleaned ->
  COUNT_EXPIRED like counted pattern (CLEANUP cleaned tbl) = 0.
Proof.
  intros Hle. unfold COUNT_EXPIRED. rewrite filter_none; [reflexivity|].
  intros r Hin. unfold matching in Hin. apply filter_In in Hin.
  destruct Hin as [Hin _]. apply CLEANUP_In in Hin. destruct Hin as [_ Hlive].
  destruct (expired counted r) eqn:E; [|reflexivity].
  now rewrite (expired_mono counted cleaned r Hle E) in Hlive.
Qed.

(** X14: [count] and [countExpired] account for what [cleanup] removes.
    When the time [countExpired(pattern)] reads is not later than the one
    [cleanup()] reads, every row [countExpired] counts is removed:
    [count(pattern)] after the [cleanup] is at most [count(pattern)]
    before it minus [countExpired(pattern)], with equality when both read
    the same time, and [countExpired(pattern)] after the [cleanup] is
    0. *)
Theorem cleanup_removes_what_countExpired_counts
  (like : string -> string -> bool) (counted cleaned : Z) (pattern : string)
  (tbl : Table) :
  counted <= cleaned ->
  exists total gone left,
    count like pattern tbl = (Ok total, tbl)
    /\ countExpired like counted pattern tbl = (Ok gone, tbl)
    /\ fst ((cleanup cleaned ;; count like pattern) tbl) = Ok left
    /\ 0 <= gone
    /\ left <= total - gone
    /\ (counted = cleaned -> left = total - gone)
    /\ fst ((cleanup cleaned ;; countExpired like counted pattern) tbl)
       = Ok 0.
Proof.
  intros Hle.
  exists (COUNT_KEYS like pattern tbl),
    (COUNT_EXPIRED like counted pattern tbl),
    (COUNT_KEYS like pattern (CLEANUP cleaned tbl)).
  split; [reflexivity|]. split; [reflexivity|]. split; [reflexivity|].
  assert (Hleft : COUNT_KEYS like pattern (CLEANUP cleaned tbl)
                  = COUNT_KEYS like pattern tbl
                    - COUNT_EXPIRED like cleaned pattern tbl).
  { unfold COUNT_KEYS, COUNT_EXPIRED, matching, CLEANUP.
    pose proof (filter_partition_length (expired cleaned)
                  (filter (fun r => like pattern (key r)) tbl)) as Hp.
    rewrite (filter_swap (fun r => like pattern (key r))
               (fun r => negb (expired cleaned r))).
    lia. }
  assert (Hgone : COUNT_EXPIRED like counted pattern tbl
                  <= COUNT_EXPIRED like cleaned pattern tbl).
  { unfold COUNT_EXPIRED.
    pose proof (filter_length_le (expired counted) (expired cleaned)
                  (matching like pattern tbl)
                  (fun r => expired_mono counted cleaned r Hle)).
    lia. }
  split; [unfold COUNT_EXPIRED; lia|].
  split; [lia|].
  split; [intros ->; exact Hleft|].
  unfold bind, cleanup, run, countExpired, query. simpl. f_equal.
  now apply COUNT_EXPIRED_CLEANUP.
Qed.

Lemma cleanup_removes_what_countExpired_counts_witness :
  let tbl := [mkRow "a" [x00] (Some 5); mkRow "b" [x00] None;
              mkRow "c" [x00] (Some 0); mkRow "d" [x00] (Some 50)] in
  exists total gone left,
    count sql_like default_pattern tbl = (Ok total, tbl)
    /\ countExpired sql_like 10 default_pattern tbl = (Ok gone, tbl)
    /\ fst ((cleanup 10 ;; count sql_like default_pattern) tbl) = Ok left
    /\ left = total - gone.
Proof.
  intros tbl.
  destruct (cleanup_removes_what_countExpired_counts sql_like 10 10
              default_pattern tbl ltac:(lia))
    as [total [gone [left [Ht [Hg [Hl [_ [_ [Heq _]]]]]]]]].
  exists total, gone, left. repeat split; try assumption. now apply Heq.
Defined.

(* ================================================================== *)
(** ** Batches of deletes and of reads *)

Lemma for_of_delete (ks : list string) (tbl : Table) :
  for_of ks (fun key => delete key) tbl
  = (Ok tt, fold_left (fun t k => DELETE k t) ks tbl).
Proof.
  revert tbl. induction ks as [|k ks IH]; intros tbl; [reflexivity|].
  simpl. unfold bind at 1, delete at 1, run. apply IH.
Qed.

Lemma In_fold_DELETE (ks : list string) (tbl : Table) (r : Row) :
  In r (fold_left (fun t k => DELETE k t) ks tbl)
  <-> In r tbl /\ ~ In (key r) ks.
Proof.
  revert tbl. induction ks as [|k ks IH]; intros tbl; simpl; [tauto|].
  rewrite IH. unfold DELETE. rewrite filter_In.
  destruct (has_key k r) eqn:E; simpl.
  - apply has_key_iff in E. intuition congruence.
  - apply has_key_false_iff in E. intuition congruence.
Qed.

Lemma GET_fold_DELETE_other (ks : list string) (tbl : Table) (k : string) :
  ~ In k ks -> GET k (fold_left (fun t k => DELETE k t) ks tbl) = GET k tbl.
Proof.
  revert tbl. induction ks as [|k' ks IH]; intros tbl Hk; [reflexivity|].
  simpl. rewrite IH by (intros H; apply Hk; now right).
  apply GET_DELETE_other. intros ->. apply Hk. now left.
Qed.

(** X15: [multiDelete(keys)] never fails.  It removes exactly the rows of
    the listed keys: afterwards [exists] is false for each of them, and
    the rows of all other keys are as before.  A key without a row, and a
    key listed twice, are no error. *)
Theorem multiDelete_removes_listed_keys (ks : list string) (tbl : Table) :
  exists tbl',
    multiDelete ks tbl = (Ok tt, tbl')
    /\ (forall r, In r tbl' <-> In r tbl /\ ~ In (key r) ks)
    /\ (forall k, In k ks -> exists_ k tbl' = (Ok false, tbl'))
    /\ (forall k, ~ In k ks -> GET k tbl' = GET k tbl).
Proof.
  exists (fold_left (fun t k => DELETE k t) ks tbl).
  split; [|split; [|split]].
  - unfold multiDelete, transaction. now rewrite for_of_delete.
  - intros r. apply In_fold_DELETE.
  - intros k Hk. apply exists_absent, GET_none_iff.
    intros r Hin Hkey. apply In_fold_DELETE in Hin. subst k. tauto.
  - intros k Hk. now apply GET_fold_DELETE_other.
Qed.

Lemma multiDelete_removes_listed_keys_witness :
  exists tbl',
    multiDelete ["k02"; "nope"; "k09"; "k02"] ten_keys_table = (Ok tt, tbl')
    /\ exists_ "k09" tbl' = (Ok false, tbl')
    /\ GET "k03" tbl' = GET "k03" ten_keys_table.
Proof.
  destruct (multiDelete_removes_listed_keys ["k02"; "nope"; "k09"; "k02"]
              ten_keys_table) as [tbl' [Hrun [_ [Hgone Hkept]]]].
  exists tbl'. split; [exact Hrun|]. split.
  - apply Hgone. simpl. tauto.
  - apply Hkept. simpl. intros [H|[H|[H|[H|[]]]]]; discriminate.
Defined.

Lemma record_get_set_same (name : string) (v : MiftahValue) (r : JsRecord) :
  record_get name (record_set name v r) = Some v.
Proof.
  unfold record_get. induction r as [|[k x] r IH]; simpl.
  - now rewrite String.eqb_refl.
  - destruct (String.eqb k name) eqn:E; simpl; now rewrite E.
Qed.

Lemma record_get_set_other (name other : string) (v : MiftahValue)
  (r : JsRecord) :
  other <> name ->
  record_get other (record_set name v r) = record_get other r.
Proof.
  intros Hne. unfold record_get. induction r as [|[k x] r IH]; simpl.
  - apply String.eqb_neq in Hne. rewrite String.eqb_sym in Hne.
    now rewrite Hne.
  - destruct (String.eqb k name) eqn:E; simpl.
    + apply String.eqb_eq in E. subst k.
      apply String.eqb_neq in Hne. rewrite String.eqb_sym in Hne.
      now rewrite Hne.
    + destruct (String.eqb k other); [reflexivity | exact IH].
Qed.

Section MultiGet.

Variable decodeValue : list byte -> Result MiftahValue.

Lemma multiGet_loop_agrees (reads : list (string * Z)) :
  forall (acc : JsRecord) (tbl : Table),
    NoDup (map fst reads) ->
    ~ In "__proto__" (map fst reads) ->
    (forall k now, In (k, now) reads ->
                   exists v, fst (get decodeValue k now tbl) = Ok v) ->
    exists result tbl',
      multiGet_loop decodeValue reads acc tbl = (Ok result, tbl')
      /\ (forall k now, In (k, now) reads ->
          exists v, fst (get decodeValue k now tbl) = Ok v
                    /\ record_get k result = Some v)
      /\ (forall k, ~ In k (map fst reads) ->
                    record_get k result = record_get k acc).
Proof.
  induction reads as [|[k1 n1] reads IH]; intros acc tbl Hnd Hproto Hok.
  - exists acc, tbl. split; [reflexivity|]. split; [intros k now []|].
    reflexivity.
  - simpl in Hnd, Hproto. apply NoDup_cons_iff in Hnd.
    destruct Hnd as [Hk1 Hnd].
    assert (Hp1 : String.eqb k1 "__proto__" = false)
      by (apply String.eqb_neq; intros ->; apply Hproto; now left).
    destruct (Hok k1 n1 (or_introl eq_refl)) as [v1 Hv1].
    destruct (get decodeValue k1 n1 tbl) as [r1 t1] eqn:Hg.
    simpl in Hv1. subst r1.
    assert (Hsame : forall k now, In (k, now) reads ->
              fst (get decodeValue k now t1)
              = fst (get decodeValue k now tbl)).
    { intros k now Hin. apply get_result_by_row.
      replace t1 with (snd (get decodeValue k1 n1 tbl)) by now rewrite Hg.
      apply get_other_row. intros ->. apply Hk1.
      apply in_map_iff. now exists (k1, now). }
    destruct (IH (record_assign k1 v1 acc) t1 Hnd
                (fun H => Hproto (or_intror H))) as [result [tbl' [Hrun [Hin Hout]]]].
    { intros k now Hkn. rewrite (Hsame k now Hkn).
      apply (Hok k now). now right. }
    exists result, tbl'. split; [|split].
    + simpl. unfold bind at 1. now rewrite Hg.
    + intros k now [Heq|Hkn].
      * injection Heq as <- <-. exists v1. rewrite Hg. split; [reflexivity|].
        rewrite (Hout k1 Hk1). unfold record_assign. rewrite Hp1.
        apply record_get_set_same.
      * destruct (Hin k now Hkn) as [v [Hv Hr]].
        exists v. split; [now rewrite <- (Hsame k now Hkn) | exact Hr].
    + intros k Hk. simpl in Hk.
      rewrite Hout by tauto. unfold record_assign. rewrite Hp1.
      apply record_get_set_other. intros ->. tauto.
Qed.

End MultiGet.

(** X16: [multiGet] answers for each key what [get] answers.  When the
    requested keys are pairwise different, none of them is [__proto__],
    and a [get] of each of them on the table succeeds, [multiGet]
    succeeds, and the object it returns has, for each requested key, the
    value [get(key)] returns on the table as it was before the call, and
    no property for any other key. *)
Theorem multiGet_agrees_with_get
  (decodeValue : list byte -> Result MiftahValue)
  (reads : list (string * Z)) (tbl : Table) :
  NoDup (map fst reads) ->
  ~ In "__proto__" (map fst reads) ->
  (forall k now, In (k, now) reads ->
                 exists v, fst (get decodeValue k now tbl) = Ok v) ->
  exists result tbl',
    multiGet decodeValue reads tbl = (Ok result, tbl')
    /\ (forall k now, In (k, now) reads ->
        exists v, fst (get decodeValue k now tbl) = Ok v
                  /\ record_get k result = Some v)
    /\ (forall k, ~ In k (map fst reads) -> record_get k result = None).
Proof.
  intros Hnd Hproto Hok.
  destruct (multiGet_loop_agrees decodeValue reads [] tbl Hnd Hproto Hok)
    as [result [tbl' [Hrun [Hin Hout]]]].
  exists result, tbl'. split; [|split].
  - unfold multiGet, transaction. now rewrite Hrun.
  - exact Hin.
  - intros k Hk. now rewrite (Hout k Hk).
Qed.

Lemma multiGet_agrees_with_get_witness :
  let tbl := [mkRow "a" [x01; x01] (Some 5); mkRow "b" [x01; x00] None] in
  exists result tbl',
    multiGet Encoding.decodeValue [("a", 10); ("b", 11); ("c", 12)] tbl
    = (Ok result, tbl')
    /\ record_get "a" result = Some VNull
    /\ record_get "b" result = Some (VBool false)
    /\ record_get "c" result = Some VNull
    /\ record_get "d" result = None.
Proof.
  intros tbl.
  destruct (multiGet_agrees_with_get Encoding.decodeValue
              [("a", 10); ("b", 11); ("c", 12)] tbl)
    as [result [tbl' [Hrun [Hin Hout]]]].
  - repeat constructor; simpl; intuition discriminate.
  - simpl. intuition discriminate.
  - intros k now [H|[H|[H|[]]]]; injection H as <- <-; eexists; reflexivity.
  - exists result, tbl'. split; [exact Hrun|].
    destruct (Hin "a" 10) as [va [Ha Hra]]; [simpl; tauto|].
    destruct (Hin "b" 11) as [vb [Hb Hrb]]; [simpl; tauto|].
    destruct (Hin "c" 12) as [vc [Hc Hrc]]; [simpl; tauto|].
    injection Ha as <-. injection Hb as <-. injection Hc as <-.
    repeat split; try assumption.
    apply Hout. simpl. intuition discriminate.
Defined.

Section MultiGetTable.

Variable decodeValue : list byte -> Result MiftahValue.

(** The table [get] leaves, from the row it finds. *)
Lemma get_table_exact (key : string) (now : Z) (tbl : Table) :
  snd (get decodeValue key now tbl)
  = match GET key tbl with
    | Some r => if taken_for_expired now r then DELETE key tbl else tbl
    | None => tbl
    end.
Proof.
  unfold get, bind, query, taken_for_expired.
  destruct (GET key tbl) as [r|]; [|reflexivity].
  now destruct (truthy (expires_at r) && (to_number (expires_at r) <=? now)).
Qed.

Lemma multiGet_loop_table (reads : list (string * Z)) :
  forall (acc : JsRecord) (tbl : Table),
    match multiGet_loop decodeValue reads acc tbl with
    | (Ok _, tbl') =>
        forall k,
          GET k tbl'
          = match GET k tbl with
            | Some r => if reclaimed_by reads k r then None else Some r
            | None => None
            end
    | (Err _, _) => True
    end.
Proof.
  induction reads as [|[k1 n1] reads IH]; intros acc tbl.
  - simpl. intros k. now destruct (GET k tbl).
  - simpl. unfold bind at 1.
    pose proof (get_table_exact k1 n1 tbl) as Ht.
    destruct (get decodeValue k1 n1 tbl) as [[v1|e1] t1]; [|exact I].
    simpl in Ht. specialize (IH (record_assign k1 v1 acc) t1).
    destruct (multiGet_loop decodeValue reads (record_assign k1 v1 acc) t1)
      as [[result|e] tbl']; [|exact I].
    intros k. rewrite IH. simpl.
    destruct (String.eqb k1 k) eqn:E.
    + apply String.eqb_eq in E. subst k1. rewrite Ht.
      destruct (GET k tbl) as [r|] eqn:Hr; [|now rewrite Hr].
      destruct (taken_for_expired n1 r); simpl.
      * now rewrite GET_DELETE_same.
      * now rewrite Hr.
    + apply String.eqb_neq in E. simpl.
      assert (Hk : GET k t1 = GET k tbl).
      { rewrite Ht. destruct (GET k1 tbl) as [r1|]; [|reflexivity].
        destruct (taken_for_expired n1 r1); [|reflexivity].
        apply GET_DELETE_other. congruence. }
      now rewrite Hk.
Qed.

Lemma multiGet_loop_fails (reads : list (string * Z)) (k : string) (now : Z)
  (r : Row) (e : MiftahError) :
  decodeValue (value r) = Err e ->
  truthy (expires_at r) = false ->
  In (k, now) reads ->
  forall (acc : JsRecord) (tbl : Table),
    GET k tbl = Some r ->
    exists e' tbl', multiGet_loop decodeValue reads acc tbl = (Err e', tbl').
Proof.
  intros Hdec Hlive.
  assert (Hget : forall n t, GET k t = Some r ->
                             get decodeValue k n t = (Err e, t)).
  { intros n t Hr. rewrite (get_live decodeValue k n t r Hr).
    - now rewrite Hdec.
    - now rewrite Hlive. }
  induction reads as [|[k1 n1] reads IH]; intros Hin acc tbl Hr; [destruct Hin|].
  simpl. unfold bind at 1.
  destruct (get decodeValue k1 n1 tbl) as [[v1|e1] t1] eqn:Hg.
  - destruct (String.eqb_spec k1 k) as [->|Hne].
    + rewrite (Hget n1 tbl Hr) in Hg. discriminate.
    + destruct Hin as [Heq|Hin]; [congruence|].
      apply (IH Hin). replace t1 with (snd (get decodeValue k1 n1 tbl))
        by now rewrite Hg.
      rewrite get_other_row by congruence. exact Hr.
  - now exists e1, t1.
Qed.

End MultiGetTable.

(** X17: what [multiGet] does to the table.  When it returns, the rows it
    removed are exactly the rows of requested keys that the [get] of one
    of their reads took for expired, and every other row is as before;
    when it throws, the table is as before the call. *)
Theorem multiGet_table
  (decodeValue : list byte -> Result MiftahValue)
  (reads : list (string * Z)) (tbl : Table) :
  match multiGet decodeValue reads tbl with
  | (Ok _, tbl') =>
      forall k,
        GET k tbl'
        = match GET k tbl with
          | Some r => if reclaimed_by reads k r then None else Some r
          | None => None
          end
  | (Err _, tbl') => tbl' = tbl
  end.
Proof.
  unfold multiGet, transaction.
  pose proof (multiGet_loop_table decodeValue reads [] tbl) as H.
  destruct (multiGet_loop decodeValue reads [] tbl) as [[result|e] tbl'];
    [exact H | reflexivity].
Qed.

(** X18: one undecodable row fails the whole [multiGet] and undoes its
    lazy deletions.  When one of the requested keys has a row without
    expiry whose stored bytes do not decode, [multiGet] throws and the
    table is exactly as before the call: the expired rows that the reads
    before it had removed are back, whereas a [get] of such a key alone
    removes its row for good. *)
Theorem multiGet_undecodable_row_rolls_back
  (decodeValue : list byte -> Result MiftahValue)
  (reads : list (string * Z)) (tbl : Table)
  (k : string) (now : Z) (r : Row) (e : MiftahError) :
  In (k, now) reads ->
  GET k tbl = Some r ->
  truthy (expires_at r) = false ->
  decodeValue (value r) = Err e ->
  exists e', multiGet decodeValue reads tbl = (Err e', tbl).
Proof.
  intros Hin Hr Hlive Hdec.
  destruct (multiGet_loop_fails decodeValue reads k now r e Hdec Hlive Hin
              [] tbl Hr) as [e' [tbl' Hrun]].
  exists e'. unfold multiGet, transaction. now rewrite Hrun.
Qed.

Lemma multiGet_undecodable_row_rolls_back_witness :
  let tbl := [mkRow "a" [x01; x01] (Some 5); mkRow "b" [xff] None] in
  (exists e',
     multiGet Encoding.decodeValue [("a", 10); ("b", 11)] tbl = (Err e', tbl))
  /\ get Encoding.decodeValue "a" 10 tbl = (Ok VNull, [mkRow "b" [xff] None]).
Proof.
  intros tbl. split; [|reflexivity].
  apply (multiGet_undecodable_row_rolls_back Encoding.decodeValue
           [("a", 10); ("b", 11)] tbl "b" 11 (mkRow "b" [xff] None)
           DecodeError); [simpl; tauto | reflexivity ..].
Defined.

(* ================================================================== *)
(** ** What a read never does *)

(** X19: [get] writes only to remove the row it answers null for.  It
    never changes the row of another key; when it returns a value other
    than null, and when it throws, the table is as before the call. *)
Theorem get_footprint
  (decodeValue : list byte -> Result MiftahValue)
  (key : string) (now : Z) (tbl : Table) :
  (forall k, k <> key ->
             GET k (snd (get decodeValue key now tbl)) = GET k tbl)
  /\ (forall v, fst (get decodeValue key now tbl) = Ok v -> v <> VNull ->
                snd (get decodeValue key now tbl) = tbl)
  /\ (forall e, fst (get decodeValue key now tbl) = Err e ->
                snd (get decodeValue key now tbl) = tbl).
Proof.
  split; [|split].
  - intros k Hne. now apply get_other_row.
  - intros v Hv Hnn. destruct (get_table decodeValue key now tbl) as [H|H];
      [exact H|].
    rewrite H in Hv. simpl in Hv. congruence.
  - intros e He. destruct (get_table decodeValue key now tbl) as [H|H];
      [exact H|].
    rewrite H in He. discriminate.
Qed.

Lemma get_footprint_witness :
  let tbl := [mkRow "a" [x01; x01] (Some 5); mkRow "b" [xff] None] in
  GET "b" (snd (get Encoding.decodeValue "a" 10 tbl)) = GET "b" tbl
  /\ snd (get Encoding.decodeValue "a" 3 tbl) = tbl
  /\ snd (get Encoding.decodeValue "b" 10 tbl) = tbl.
Proof.
  intros tbl.
  destruct (get_footprint Encoding.decodeValue "a" 10 tbl) as [Hother _].
  destruct (get_footprint Encoding.decodeValue "a" 3 tbl) as [_ [Hvalue _]].
  destruct (get_footprint Encoding.decodeValue "b" 10 tbl) as [_ [_ Herr]].
  split; [apply Hother; discriminate|]. split.
  - apply (Hvalue (VBool true)); [reflexivity | discriminate].
  - apply (Herr DecodeError). reflexivity.
Defined.

(* ================================================================== *)
(** ** The primary key, in every reachable state *)

Section Reachable.

Variable encodeValue : MiftahValue -> Result (list byte).
Variable decodeValue : list byte -> Result MiftahValue.
Variable like : string -> string -> bool.

Lemma multiGet_loop_keeps_order (reads : list (string * Z)) :
  forall acc, keeps_order (multiGet_loop decodeValue reads acc).
Proof.
  induction reads as [|[k now] reads IH]; intros acc; simpl.
  - apply keeps_order_ret.
  - apply keeps_order_bind; [apply get_keeps_order | intros v; apply IH].
Qed.

Lemma getExpire_keeps_order (key : string) : keeps_order (getExpire key).
Proof.
  unfold getExpire. apply keeps_order_bind; [apply keeps_order_query|].
  intros [e|]; apply keeps_order_ret.
Qed.

Lemma exists_keeps_order (key : string) : keeps_order (exists_ key).
Proof.
  unfold exists_. apply keeps_order_bind; [apply keeps_order_query|].
  intros n. apply keeps_order_ret.
Qed.

Lemma multiGet_keeps_order (reads : list (string * Z)) :
  keeps_order (multiGet decodeValue reads).
Proof.
  unfold multiGet. apply keeps_order_transaction, multiGet_loop_keeps_order.
Qed.

Lemma perform_keeps_order (c : Call) (tbl : Table) :
  key_ordered tbl ->
  key_ordered (perform encodeValue decodeValue like c tbl).
Proof.
  intros H.
  destruct c as [k now|k v e|k|k|o n|k d|k|p|l pg p|p|now p|reads|entries|ks
                 |now|]; unfold perform.
  - now apply get_keeps_order.
  - now apply set_keeps_order.
  - now apply exists_keeps_order.
  - now apply delete_keeps_order.
  - now apply rename_keeps_order.
  - now apply setExpire_keeps_order.
  - now apply getExpire_keeps_order.
  - exact H.
  - exact H.
  - exact H.
  - exact H.
  - now apply multiGet_keeps_order.
  - now apply multiSet_keeps_order.
  - now apply multiDelete_keeps_order.
  - now apply cleanup_keeps_order.
  - constructor.
Qed.

Lemma run_calls_ordered (calls : list Call) :
  key_ordered (run_calls encodeValue decodeValue like calls).
Proof.
  unfold run_calls.
  assert (H : forall tbl, key_ordered tbl ->
            key_ordered
              (fold_left
                 (fun t c => perform encodeValue decodeValue like c t)
                 calls tbl)).
  { induction calls as [|c calls IH]; intros tbl Hs; [exact Hs|].
    simpl. apply IH. now apply perform_keeps_order. }
  apply H. constructor.
Qed.

End Reachable.

(** X20: no sequence of calls gives a key two rows.  In the table that any
    sequence of method calls leaves on a store that started empty,
    whether the calls returned or threw, the keys of the rows are
    pairwise different; so [keys(pattern)] never lists a key twice, and
    the row [get], [exists] and [getExpire] find for a key is the only row
    of that key. *)
Theorem reachable_tables_have_unique_keys
  (encodeValue : MiftahValue -> Result (list byte))
  (decodeValue : list byte -> Result MiftahValue)
  (like : string -> string -> bool) (calls : list Call) (pattern : string) :
  let tbl := run_calls encodeValue decodeValue like calls in
  NoDup (map key tbl)
  /\ (exists ks, keys like pattern tbl = (Ok ks, tbl) /\ NoDup ks)
  /\ (forall r r', In r tbl -> In r' tbl -> key r = key r' -> r = r').
Proof.
  intros tbl.
  pose proof (run_calls_ordered encodeValue decodeValue like calls) as Hs.
  fold tbl in Hs. split; [|split].
  - now apply key_ordered_NoDup.
  - exists (KEYS like pattern tbl). split; [reflexivity|].
    unfold KEYS, matching. apply key_ordered_NoDup.
    now apply key_ordered_filter.
  - apply key_ordered_NoDup in Hs. revert Hs. generalize tbl. clear.
    intros tbl. induction tbl as [|x tbl IH]; intros Hnd r r' Hr Hr' Hk;
      [destruct Hr|].
    simpl in Hnd. apply NoDup_cons_iff in Hnd. destruct Hnd as [Hx Hnd].
    destruct Hr as [<-|Hr], Hr' as [<-|Hr'].
    + reflexivity.
    + exfalso. apply Hx. rewrite Hk. now apply in_map.
    + exfalso. apply Hx. rewrite <- Hk. now apply in_map.
    + now apply IH.
Qed.

Lemma reachable_tables_have_unique_keys_witness :
  let calls := [CallSet "b" (VBool true) None;
                CallSet "a" VNull (Some (mkDate 5));
                CallSet "b" VFunction None;
                CallRename "a" "b";
                CallMultiSet [mkEntry "c" VNull None; mkEntry "b" VNull None];
                CallGet "c" 10;
                CallSetExpire "b" (mkDate 7)] in
  let tbl := run_calls Encoding.encodeValue Encoding.decodeValue sql_like
               calls in
  map key tbl = ["b"; "c"]
  /\ NoDup (map key tbl)
  /\ exists ks, keys sql_like "%" tbl = (Ok ks, tbl) /\ NoDup ks.
Proof.
  intros calls tbl.
  destruct (reachable_tables_have_unique_keys Encoding.encodeValue
              Encoding.decodeValue sql_like calls "%") as [Hnd [Hks _]].
  split; [reflexivity|]. split; [exact Hnd | exact Hks].
Defined.

(* ================================================================== *)
(** ** Counting after a write *)

Lemma filter_insert_row_length (f : Row -> bool) (r : Row) (tbl : Table) :
  List.length (filter f (insert_row r tbl))
  = (List.length (filter f tbl) + if f r then 1 else 0)%nat.
Proof.
  induction tbl as [|x tbl IH]; simpl.
  - destruct (f r); reflexivity.
  - destruct (String.ltb (key r) (key x)); simpl.
    + destruct (f r), (f x); simpl; lia.
    + destruct (f x); simpl; rewrite IH; lia.
Qed.

(** X21: what a [set] does to [count].  On a key-ordered table, a
    successful [set(key, ...)] leaves [count(pattern)] unchanged when the
    key already had a row, and otherwise raises it by one if the pattern
    matches the key and leaves it unchanged if not. *)
Theorem set_changes_count_by_at_most_one
  (encodeValue : MiftahValue -> Result (list byte))
  (like : string -> string -> bool)
  (key : string) (v : MiftahValue) (expiresAt : option Date)
  (bs : list byte) (pattern : string) (tbl : Table) :
  key_ordered tbl ->
  encodeValue v = Ok bs ->
  exists before after,
    count like pattern tbl = (Ok before, tbl)
    /\ fst ((set encodeValue key v expiresAt ;; count like pattern) tbl)
       = Ok after
    /\ after
       = before
         + match GET key tbl with
           | Some _ => 0
           | None => if like pattern key then 1 else 0
           end.
Proof.
  intros Hs Henc.
  exists (COUNT_KEYS like pattern tbl),
    (COUNT_KEYS like pattern
       (SET key bs (option_map getTime expiresAt) tbl)).
  split; [reflexivity|]. split.
  - unfold bind at 1. now rewrite (set_encoded encodeValue _ _ _ bs tbl Henc).
  - unfold COUNT_KEYS, matching, SET.
    rewrite filter_insert_row_length. simpl.
    destruct (GET key tbl) as [r|] eqn:H.
    + rewrite <- (insert_row_DELETE key r tbl Hs H) at 2.
      rewrite filter_insert_row_length, (GET_some_key _ _ _ H). lia.
    + rewrite (DELETE_absent _ _ H). destruct (like pattern key); lia.
Qed.

Lemma set_changes_count_by_at_most_one_witness :
  fst ((set Encoding.encodeValue "k05" (VBool true) None ;;
        count sql_like default_pattern) ten_keys_table) = Ok 10
  /\ fst ((set Encoding.encodeValue "k11" (VBool true) None ;;
          count sql_like default_pattern) ten_keys_table) = Ok 11
  /\ fst ((set Encoding.encodeValue "k11" (VBool true) None ;;
          count sql_like "x%") ten_keys_table) = Ok 0.
Proof.
  destruct (set_changes_count_by_at_most_one Encoding.encodeValue sql_like
              "k05" (VBool true) None [x01; x01] default_pattern
              ten_keys_table ten_keys_table_ordered eq_refl)
    as [b1 [a1 [Hb1 [Ha1 He1]]]].
  destruct (set_changes_count_by_at_most_one Encoding.encodeValue sql_like
              "k11" (VBool true) None [x01; x01] default_pattern
              ten_keys_table ten_keys_table_ordered eq_refl)
    as [b2 [a2 [Hb2 [Ha2 He2]]]].
  destruct (set_changes_count_by_at_most_one Encoding.encodeValue sql_like
              "k11" (VBool true) None [x01; x01] "x%"
              ten_keys_table ten_keys_table_ordered eq_refl)
    as [b3 [a3 [Hb3 [Ha3 He3]]]].
  injection Hb1 as <-. injection Hb2 as <-. injection Hb3 as <-.
  rewrite Ha1, Ha2, Ha3, He1, He2, He3. repeat split.
Defined.
